(** * Bag: a dot-path attribute container with a guarded (deep-frozen) mode

    Shallow embedding of [src/index.js] (class [Bag]) and of its [Support]
    module ([freeze] / [unfreeze]) over an explicit JavaScript object heap.

    - Objects live in a heap (a list indexed by location); a value is a
      primitive or a reference, so that aliasing, in-place freezing and
      "carried over by reference" are visible.
    - Every computation is a function from a state to an [outcome]: a normal
      return, a thrown exception (both with the state reached), or
      [OutOfFuel] for a recursion that did not finish within the fuel (in
      JavaScript: unbounded recursion).
    - [Support] and [Bag] are ES modules, hence strict-mode code: a write to
      a frozen object throws [TypeError].  lodash is an external dependency;
      the functions used by [Bag] ([get], [set], [unset], [extend],
      [defaults], [each], [isPlainObject]) are modelled after lodash 4.17
      ([castArray], imported by [index.js], exists since 4.4).  Whether a
      write performed inside lodash on a frozen object throws or is silently
      dropped depends on whether lodash's own code is strict (lodash-es) or
      sloppy (the stock [lodash.js] build): this is the parameter [strict].

    Outside the model: the prototype chain, the [length] of arrays, symbol
    keys, numbers other than integers, the bracket syntax of lodash paths
    (["a[0].b"]), and constructors other than field initialisers. *)

From Stdlib Require Import ZArith NArith String Ascii List Lia DecimalString
  DecimalN DecimalPos.
From stdpp Require Import base list strings.

Local Open Scope string_scope.
Local Open Scope list_scope.
Set Warnings "-register-all".

(** ** Values and the heap *)

Abbreviation loc := nat.

Inductive value :=
| VUndefined
| VNull
| VBool (b : bool)
| VNum (n : Z)
| VStr (s : string)
| VObj (l : loc).

(** What [isPlainObject] tells apart: an object literal, an array, or an
    instance of a class (any other non-plain object). *)
Inductive kind := Plain | Array | Instance.

#[global] Instance value_eq_dec : EqDecision value.
Proof. solve_decision. Defined.

Record object := Obj {
  o_kind : kind;
  o_frozen : bool;
  o_props : list (string * value)   (* own properties, in insertion order *)
}.

Abbreviation heap := (list object).

Inductive error := TypeError.

Inductive outcome (S A : Type) :=
| Ret (a : A) (s : S)
| Throw (e : error) (s : S)
| OutOfFuel.
Arguments Ret {S A} a s.
Arguments Throw {S A} e s.
Arguments OutOfFuel {S A}.

Definition M (S A : Type) := S -> outcome S A.

Definition ret {S A} (a : A) : M S A := fun s => Ret a s.
Definition throw {S A} (e : error) : M S A := fun s => Throw e s.
Definition diverge {S A} : M S A := fun _ => OutOfFuel.
Definition bind {S A B} (m : M S A) (k : A -> M S B) : M S B :=
  fun s => match m s with
           | Ret a s' => k a s'
           | Throw e s' => Throw e s'
           | OutOfFuel => OutOfFuel
           end.
Definition reads {S A} (f : S -> A) : M S A := fun s => Ret (f s) s.
Definition modify {S} (f : S -> S) : M S unit := fun s => Ret tt (f s).

Notation "x <- m ;; k" := (bind m (fun x => k))
  (at level 100, m at next level, right associativity).
Notation "m ;; k" := (bind m (fun _ => k))
  (at level 100, right associativity).

(** [for (const x of xs) body(x)] *)
Fixpoint for_each {S A} (xs : list A) (body : A -> M S unit) : M S unit :=
  match xs with
  | [] => ret tt
  | x :: xs' => body x ;; for_each xs' body
  end.

(** ** Property lists *)

Fixpoint pget (ps : list (string * value)) (k : string) : option value :=
  match ps with
  | [] => None
  | (k', v) :: ps' => if String.eqb k' k then Some v else pget ps' k
  end.

Fixpoint pset (ps : list (string * value)) (k : string) (v : value)
  : list (string * value) :=
  match ps with
  | [] => [(k, v)]
  | (k', v') :: ps' =>
      if String.eqb k' k then (k, v) :: ps' else (k', v') :: pset ps' k v
  end.

Fixpoint pdel (ps : list (string * value)) (k : string)
  : list (string * value) :=
  match ps with
  | [] => []
  | (k', v') :: ps' =>
      if String.eqb k' k then pdel ps' k else (k', v') :: pdel ps' k
  end.

(** ** Decimal strings, indices, paths *)

Definition string_of_N (n : N) : string := NilZero.string_of_uint (N.to_uint n).

Definition string_of_Z (n : Z) : string := NilZero.string_of_int (Z.to_int n).

(** A canonical decimal numeral (lodash's [reIsUint]). *)
Definition index_of (s : string) : option N :=
  match NilZero.uint_of_string s with
  | Some u => let n := N.of_uint u in
              if String.eqb (string_of_N n) s then Some n else None
  | None => None
  end.

Definition MAX_SAFE_INTEGER : N := 9007199254740991.

Definition isIndex (s : string) : bool :=
  match index_of s with
  | Some n => (n <? MAX_SAFE_INTEGER)%N
  | None => false
  end.

Fixpoint has_char (c : ascii) (s : string) : bool :=
  match s with
  | EmptyString => false
  | String c' s' => Ascii.eqb c' c || has_char c s'
  end.


(** ** The path syntax of lodash

    [stringToPath] and [isKey], with their regular expressions
    [rePropName], [reEscapeChar] and [reIsDeepProp] read as scanners. *)

(** The longest prefix of [s] whose characters satisfy [p], and the rest. *)
Fixpoint span (p : ascii -> bool) (s : string) : string * string :=
  match s with
  | String c s' =>
      if p c then (String c (fst (span p s')), snd (span p s'))
      else (EmptyString, s)
  | EmptyString => (EmptyString, EmptyString)
  end.

Definition backslash : ascii := "092"%char.
Definition double_quote : ascii := "034"%char.

(** [[^.[\]]]: a character of a property name. *)
Definition name_char (c : ascii) : bool :=
  negb (Ascii.eqb c "."%char || Ascii.eqb c "["%char || Ascii.eqb c "]"%char).

(** [[^[\]]] *)
Definition no_bracket (c : ascii) : bool :=
  negb (Ascii.eqb c "["%char || Ascii.eqb c "]"%char).

(** [\d] *)
Definition digit (c : ascii) : bool :=
  (48 <=? nat_of_ascii c)%nat && (nat_of_ascii c <=? 57)%nat.

(** What [.] does not match in a regular expression. *)
Definition line_terminator (c : ascii) : bool :=
  (nat_of_ascii c =? 10)%nat || (nat_of_ascii c =? 13)%nat.

Definition is_quote (c : ascii) : bool :=
  Ascii.eqb c double_quote || Ascii.eqb c "'"%char.

(** [(-?\d+(?:\.\d+)?)\]] at the start of [s]: the number and what follows
    the bracket. *)
Definition bracket_number (s : string) : option (string * string) :=
  let '(sign, s1) := match s with
                     | String c s' => if Ascii.eqb c "-"%char then ("-", s') else ("", s)
                     | EmptyString => ("", s)
                     end in
  let '(int, s2) := span digit s1 in
  if String.eqb int "" then None
  else match s2 with
       | String c s3 =>
           if Ascii.eqb c "]"%char then Some (String.append sign int, s3)
           else if Ascii.eqb c "."%char then
             let '(frac, s4) := span digit s3 in
             if String.eqb frac "" then None
             else match s4 with
                  | String c' rest =>
                      if Ascii.eqb c' "]"%char
                      then Some (String.append sign (String.append int (String "."%char frac)), rest)
                      else None
                  | EmptyString => None
                  end
           else None
       | EmptyString => None
       end.

(** The body of a quoted segment at the start of [s], [q] being the opening
    quote: characters other than [q] and the backslash, and pairs of a
    backslash and a character [.] matches, up to the first [q] that no
    backslash escapes; with what follows that quote. *)
Fixpoint quoted_body (q : ascii) (s : string) : option (string * string) :=
  match s with
  | EmptyString => None
  | String c s' =>
      if Ascii.eqb c q then Some (EmptyString, s')
      else if Ascii.eqb c backslash then
        match s' with
        | String d s'' =>
            if line_terminator d then None
            else match quoted_body q s'' with
                 | Some (body, rest) => Some (String c (String d body), rest)
                 | None => None
                 end
        | EmptyString => None
        end
      else match quoted_body q s' with
           | Some (body, rest) => Some (String c body, rest)
           | None => None
           end
  end.

(** A quoted segment and its closing bracket at the start of [s] (after
    the opening bracket): the quoted body and what follows the bracket. *)
Definition bracket_quoted (s : string) : option (string * string) :=
  match s with
  | String q s' =>
      if is_quote q
      then match quoted_body q s' with
           | Some (body, String c rest) =>
               if Ascii.eqb c "]"%char then Some (body, rest) else None
           | _ => None
           end
      else None
  | EmptyString => None
  end.

(** [subString.replace(reEscapeChar, '$1')], with [reEscapeChar = /\\(\\)?/g]:
    a backslash is dropped, two backslashes are one. *)
Fixpoint unescape (s : string) : string :=
  match s with
  | EmptyString => EmptyString
  | String c s' =>
      if Ascii.eqb c backslash then
        match s' with
        | String d s'' =>
            if Ascii.eqb d backslash then String backslash (unescape s'')
            else unescape s'
        | EmptyString => EmptyString
        end
      else String c (unescape s')
  end.

(** [.] or [[]] at the start of [s]: what follows. *)
Definition dot_or_brackets (s : string) : option string :=
  match s with
  | String c s' =>
      if Ascii.eqb c "."%char then Some s'
      else if Ascii.eqb c "["%char then
        match s' with
        | String d s'' => if Ascii.eqb d "]"%char then Some s'' else None
        | EmptyString => None
        end
      else None
  | EmptyString => None
  end.

(** The lookahead [(?=(?:\.|\[\])(?:\.|\[\]|$))]: an empty segment. *)
Definition empty_segment (s : string) : bool :=
  match dot_or_brackets s with
  | Some EmptyString => true
  | Some r => match dot_or_brackets r with Some _ => true | None => false end
  | None => false
  end.

(** The successive matches of [rePropName] in [s], as [stringToPath] pushes
    them: a name, a bracketed number, a bracketed quoted string (unescaped),
    or an empty segment; a character at which nothing matches is skipped.
    [fuel] bounds the number of steps, each of which consumes a character. *)
Fixpoint rePropName (fuel : nat) (s : string) : list string :=
  match fuel, s with
  | S fuel', String c rest =>
      if name_char c then
        fst (span name_char s) :: rePropName fuel' (snd (span name_char s))
      else
        match (if Ascii.eqb c "["%char
               then match bracket_number rest with
                    | Some r => Some r
                    | None => match bracket_quoted rest with
                              | Some (body, r) => Some (unescape body, r)
                              | None => None
                              end
                    end
               else None) with
        | Some (seg, s') => seg :: rePropName fuel' s'
        | None =>
            if empty_segment s then "" :: rePropName fuel' rest
            else rePropName fuel' rest
        end
  | _, _ => []
  end.

(** [stringToPath(string)] *)
Definition stringToPath (s : string) : list string :=
  (match s with
   | String c _ => if Ascii.eqb c "."%char then [""] else []
   | EmptyString => []
   end) ++ rePropName (String.length s) s.

(** The bracket group of [reIsDeepProp] at the start of [s], after its
    opening bracket: characters other than brackets, or a quoted segment,
    and the closing bracket. *)
Definition bracket_group (s : string) : bool :=
  match snd (span no_bracket s) with
  | String c _ => Ascii.eqb c "]"%char
  | EmptyString => false
  end
  || match bracket_quoted s with Some _ => true | None => false end.

(** [reIsDeepProp.test(s)]: [s] has a dot or a bracket group. *)
Fixpoint reIsDeepProp (s : string) : bool :=
  match s with
  | EmptyString => false
  | String c rest =>
      Ascii.eqb c "."%char || (Ascii.eqb c "["%char && bracket_group rest)
      || reIsDeepProp rest
  end.

(** The key argument of the container's methods: documented as a string,
    but an absent argument ([undefined]) and the numeric indices handed out
    by [each] occur too. *)
Inductive key :=
| KStr (s : string)
| KNum (n : Z)
| KUndefined
| KNull
| KBool (b : bool).

(** ** Reading the heap *)

Definition nullish (v : value) : bool :=
  match v with VUndefined | VNull => true | _ => false end.

Definition isObject (v : value) : bool :=
  match v with VObj _ => true | _ => false end.

Definition truthy (v : value) : bool :=
  match v with
  | VUndefined | VNull => false
  | VBool b => b
  | VNum n => negb (n =? 0)%Z
  | VStr s => negb (String.eqb s "")
  | VObj _ => true
  end.

(** lodash [eq] (SameValueZero). *)
Definition lodash_eq (a b : value) : bool :=
  match a, b with
  | VUndefined, VUndefined => true
  | VNull, VNull => true
  | VBool x, VBool y => Bool.eqb x y
  | VNum x, VNum y => (x =? y)%Z
  | VStr x, VStr y => String.eqb x y
  | VObj x, VObj y => Nat.eqb x y
  | _, _ => false
  end.

Definition isPlainObject (h : heap) (v : value) : bool :=
  match v with
  | VObj l => match h !! l with
              | Some o => match o_kind o with Plain => true | _ => false end
              | None => false
              end
  | _ => false
  end.

Definition char_at (s : string) (n : N) : option string :=
  match String.get (N.to_nat n) s with
  | Some c => Some (String c EmptyString)
  | None => None
  end.

(** Own property of a string primitive: its length and its characters. *)
Definition string_prop (s : string) (k : string) : option value :=
  if String.eqb k "length" then Some (VNum (Z.of_nat (String.length s)))
  else match index_of k with
       | Some n => option_map VStr (char_at s n)
       | None => None
       end.

Definition own_prop (h : heap) (v : value) (k : string) : option value :=
  match v with
  | VObj l => match h !! l with
              | Some o => pget (o_props o) k
              | None => None
              end
  | VStr s => string_prop s k
  | _ => None
  end.

(** [v[k]] (callers test [v] for null and undefined first). *)
Definition get_prop (h : heap) (v : value) (k : string) : value :=
  match own_prop h v k with Some x => x | None => VUndefined end.

Definition hasOwn (h : heap) (v : value) (k : string) : bool :=
  match own_prop h v k with Some _ => true | None => false end.

Definition ownKeys (h : heap) (v : value) : list string :=
  match v with
  | VObj l => match h !! l with
              | Some o => map fst (o_props o)
              | None => []
              end
  | _ => []
  end.

(** ** Writing the heap *)

Definition alloc (o : object) : M heap value :=
  fun h => Ret (VObj (List.length h)) (h ++ [o]).

(** [target[k] = v].  [strict]: the assignment is strict-mode code. *)
Definition put (strict : bool) (target : value) (k : string) (v : value)
  : M heap unit :=
  fun h =>
    match target with
    | VObj l =>
        match h !! l with
        | Some o =>
            if o_frozen o
            then (if strict then Throw TypeError h else Ret tt h)
            else Ret tt (<[l := Obj (o_kind o) false (pset (o_props o) k v)]> h)
        | None => Ret tt h
        end
    | VUndefined | VNull => Throw TypeError h
    | _ => if strict then Throw TypeError h else Ret tt h
    end.

(** [delete target[k]] *)
Definition delete_prop (strict : bool) (target : value) (k : string)
  : M heap unit :=
  fun h =>
    match target with
    | VObj l =>
        match h !! l with
        | Some o =>
            match pget (o_props o) k with
            | None => Ret tt h
            | Some _ =>
                if o_frozen o
                then (if strict then Throw TypeError h else Ret tt h)
                else Ret tt (<[l := Obj (o_kind o) false (pdel (o_props o) k)]> h)
            end
        | None => Ret tt h
        end
    | VStr s =>
        match string_prop s k with
        | Some _ => if strict then Throw TypeError h else Ret tt h
        | None => Ret tt h
        end
    | _ => Ret tt h
    end.

(** [Object.freeze(target)] *)
Definition Object_freeze (target : value) : M heap value :=
  fun h =>
    match target with
    | VObj l =>
        match h !! l with
        | Some o => Ret target (<[l := Obj (o_kind o) true (o_props o)]> h)
        | None => Ret target h
        end
    | _ => Ret target h
    end.

(** [Reflect.ownKeys(target)]: a TypeError on a non-object. *)
Definition Reflect_ownKeys (target : value) : M heap (list string) :=
  fun h =>
    match target with
    | VObj _ => Ret (ownKeys h target) h
    | _ => Throw TypeError h
    end.

(** ** Support: freeze and unfreeze *)

(** The body of the loop of [freeze], for one key; [freeze_rec] is the
    recursive call. *)
Definition freeze_key (freeze_rec : value -> M heap value) (object : value)
    (key : string) : M heap unit :=
  value <- reads (fun h => get_prop h object key) ;;
  plain <- reads (fun h => isPlainObject h value) ;;
  if plain
  then frozen <- freeze_rec value ;; put true object key frozen
  else ret tt.

Fixpoint freeze (fuel : nat) (object : value) : M heap value :=
  match fuel with
  | 0 => diverge
  | S fuel' =>
      keys <- Reflect_ownKeys object ;;
      for_each keys (freeze_key (freeze fuel') object) ;;
      Object_freeze object
  end.

(** The body of the loop of [unfreeze], for one key.  The new object has
    no own property [__proto__]: the assignment [unfrozen['__proto__'] = ...]
    goes to the setter it inherits from [Object.prototype], which stores no
    property (it replaces the prototype of the new object when the value
    is an object or [null]; the model keeps no prototypes). *)
Definition unfreeze_key (unfreeze_rec : value -> M heap value)
    (object unfrozen : value) (key : string) : M heap unit :=
  value <- reads (fun h => get_prop h object key) ;;
  plain <- reads (fun h => isPlainObject h value) ;;
  copy <- (if plain then unfreeze_rec value else ret value) ;;
  if String.eqb key "__proto__" then ret tt else put true unfrozen key copy.

Fixpoint unfreeze (fuel : nat) (object : value) : M heap value :=
  match fuel with
  | 0 => diverge
  | S fuel' =>
      unfrozen <- alloc (Obj Plain false []) ;;
      keys <- Reflect_ownKeys object ;;
      for_each keys (unfreeze_key (unfreeze fuel') object unfrozen) ;;
      ret unfrozen
  end.

(** ** lodash *)

Definition toKey (k : key) : string :=
  match k with
  | KStr s => s
  | KNum n => string_of_Z n
  | KUndefined => "undefined"
  | KNull => "null"
  | KBool true => "true"
  | KBool false => "false"
  end.

(** [castPath(path, object)]: a string is parsed as a path unless [isKey]
    holds of it, that is unless it has no dot and no bracket group
    ([reIsPlainProp] implies this) or names a property of [object] as it
    stands; any other primitive is a single key. *)
Definition castPath (h : heap) (k : key) (object : value) : list string :=
  match k with
  | KStr s =>
      if reIsDeepProp s && negb (hasOwn h object s)
      then stringToPath s else [s]
  | _ => [toKey k]
  end.

Fixpoint baseGet_loop (h : heap) (object : value) (path : list string) : value :=
  match path with
  | [] => object
  | k :: rest =>
      if nullish object then VUndefined
      else baseGet_loop h (get_prop h object k) rest
  end.

Definition baseGet (h : heap) (object : value) (path : list string) : value :=
  match path with
  | [] => VUndefined
  | _ => baseGet_loop h object path
  end.

(** [_.get(object, path, defaultValue)] *)
Definition lodash_get (h : heap) (object : value) (k : key) (defaultValue : value)
  : value :=
  let result :=
    if nullish object then VUndefined
    else baseGet h object (castPath h k object) in
  match result with
  | VUndefined => defaultValue
  | _ => result
  end.

(** [baseAssignValue(object, key, value)]: an assignment, but for the key
    [__proto__], which is defined with [defineProperty]: on a frozen object
    this throws whatever the mode. *)
Definition baseAssignValue (strict : bool) (object : value) (k : string)
    (v : value) : M heap unit :=
  put (strict || String.eqb k "__proto__") object k v.

(** [assignValue(object, key, value)]: no write when the own property
    already holds the value. *)
Definition assignValue (strict : bool) (object : value) (k : string) (v : value)
  : M heap unit :=
  fun h =>
    if hasOwn h object k && lodash_eq (get_prop h object k) v
    then Ret tt h
    else baseAssignValue strict object k v h.

Definition unsafe_key (k : string) : bool :=
  String.eqb k "__proto__" || String.eqb k "constructor"
  || String.eqb k "prototype".

Fixpoint baseSet_loop (strict : bool) (path : list string) (v : value)
    (nested : value) : M heap unit :=
  match path with
  | [] => ret tt
  | k :: rest =>
      if nullish nested then ret tt
      else if unsafe_key k then ret tt
      else
        match rest with
        | [] => assignValue strict nested k v
        | next :: _ =>
            objValue <- reads (fun h => get_prop h nested k) ;;
            newValue <- (if isObject objValue then ret objValue
                         else alloc (Obj (if isIndex next then Array else Plain)
                                         false [])) ;;
            assignValue strict nested k newValue ;;
            nested' <- reads (fun h => get_prop h nested k) ;;
            baseSet_loop strict rest v nested'
        end
  end.

(** [_.set(object, path, value)] *)
Definition lodash_set (strict : bool) (object : value) (k : key) (v : value)
  : M heap unit :=
  fun h =>
    if isObject object
    then baseSet_loop strict (castPath h k object) v object h
    else Ret tt h.

(** [_.unset(object, path)] *)
Definition lodash_unset (strict : bool) (object : value) (k : key)
  : M heap unit :=
  fun h =>
    if nullish object then Ret tt h
    else
      let path := castPath h k object in
      let parent :=
        match path with
        | [] | [_] => object
        | _ => baseGet h object (removelast path)
        end in
      if nullish parent then Ret tt h
      else delete_prop strict parent (List.last path "undefined") h.

(** [keysIn(source)] *)
Definition keysIn (h : heap) (source : value) : list string :=
  match source with
  | VObj _ => ownKeys h source
  | VStr s => map (fun i => string_of_N (N.of_nat i)) (seq 0 (String.length s))
  | _ => []
  end.

(** [_.extend(object, source)], an alias of [assignIn]. *)
Definition lodash_extend (strict : bool) (object : value) (source : value)
  : M heap unit :=
  fun h =>
    if truthy source
    then for_each (keysIn h source) (fun k =>
           newValue <- reads (fun h => get_prop h source k) ;;
           assignValue strict object k newValue) h
    else Ret tt h.

(** The test of [_.defaults] on [object[key]]: the value is [undefined], or
    it is the inherited one of [Object.prototype] and [key] is no own
    property.  For a plain [object]: an own property is filled when it is
    [undefined], a missing one always, but for [__proto__], which reads as
    the prototype of [object]. *)
Definition defaults_fills (h : heap) (object : value) (k : string) : bool :=
  if hasOwn h object k then lodash_eq (get_prop h object k) VUndefined
  else negb (String.eqb k "__proto__").

(** [_.defaults(object, source)] *)
Definition lodash_defaults (strict : bool) (object : value) (source : value)
  : M heap unit :=
  fun h =>
    for_each (keysIn h source) (fun k =>
      fill <- reads (fun h => defaults_fills h object k) ;;
      if fill
      then srcValue <- reads (fun h => get_prop h source k) ;;
           put strict object k srcValue
      else ret tt) h.

(** ** The container *)

(** A value-wrapper constructor, by the fields it gives the new instance. *)
Definition model := value -> list (string * value).

Record world := World {
  w_heap : heap;
  attributes : value;               (* this.attributes *)
  AttributeModel : option model;    (* this.AttributeModel *)
  GuardedState : option bool        (* GuardedState.get(this), if any *)
}.

Inductive self := this.

Definition on_heap {A} (m : M heap A) : M world A :=
  fun w =>
    match m (w_heap w) with
    | Ret a h => Ret a (World h (attributes w) (AttributeModel w) (GuardedState w))
    | Throw e h => Throw e (World h (attributes w) (AttributeModel w) (GuardedState w))
    | OutOfFuel => OutOfFuel
    end.

Definition set_attributes (v : value) : M world unit :=
  modify (fun w => World (w_heap w) v (AttributeModel w) (GuardedState w)).

Definition GuardedState_set (b : bool) : M world unit :=
  modify (fun w => World (w_heap w) (attributes w) (AttributeModel w) (Some b)).

Definition array_length (ps : list (string * value)) : N :=
  fold_right (fun kv n => match index_of (fst kv) with
                          | Some i => N.max (N.succ i) n
                          | None => n
                          end) 0%N ps.

(** [isArrayLike(collection)], with the length. *)
Definition arrayLike (h : heap) (collection : value) : option N :=
  match collection with
  | VStr s => Some (N.of_nat (String.length s))
  | VObj l =>
      match h !! l with
      | Some o =>
          match o_kind o with
          | Array => Some (array_length (o_props o))
          | _ => match pget (o_props o) "length" with
                 | Some (VNum n) =>
                     if (0 <=? n)%Z && (n <=? Z.of_N MAX_SAFE_INTEGER)%Z
                     then Some (Z.to_N n) else None
                 | _ => None
                 end
          end
      | None => None
      end
  | _ => None
  end.

(** [_.each(collection, iteratee)]: by index over an array-like, over the
    own keys otherwise. *)
Definition lodash_each (collection : value) (iteratee : value -> key -> M world unit)
  : M world unit :=
  fun w =>
    match arrayLike (w_heap w) collection with
    | Some n =>
        for_each (seq 0 (N.to_nat n)) (fun i =>
          v <- reads (fun w => get_prop (w_heap w) collection
                                 (string_of_N (N.of_nat i))) ;;
          iteratee v (KNum (Z.of_nat i))) w
    | None =>
        for_each (ownKeys (w_heap w) collection) (fun k =>
          v <- reads (fun w => get_prop (w_heap w) collection k) ;;
          iteratee v (KStr k)) w
    end.

Definition instance_props (fields : list (string * value)) : list (string * value) :=
  fold_left (fun ps kv => pset ps (fst kv) (snd kv)) fields [].

Section Bag.
(** Whether lodash's own assignments are strict-mode code. *)
Variable strict : bool.
(** Recursion budget of [freeze] and [unfreeze]. *)
Variable fuel : nat.

Definition convertToModel (v : value) : M world value :=
  AM <- reads AttributeModel ;;
  match AM with
  | None => ret v
  | Some fields => on_heap (alloc (Obj Instance false (instance_props (fields v))))
  end.

Definition Bag_guard : M world self :=
  attrs <- reads attributes ;;
  on_heap (freeze fuel attrs) ;;
  GuardedState_set true ;;
  ret this.

Definition Bag_unguard : M world self :=
  attrs <- reads attributes ;;
  unfrozen <- on_heap (unfreeze fuel attrs) ;;
  set_attributes unfrozen ;;
  GuardedState_set false ;;
  ret this.

Definition Bag_isGuarded : M world value :=
  g <- reads GuardedState ;;
  ret (match g with Some b => VBool b | None => VUndefined end).

Definition Bag_set (k : key) (v : value) : M world self :=
  attrs <- reads attributes ;;
  converted <- convertToModel v ;;
  on_heap (lodash_set strict attrs k converted) ;;
  ret this.

Definition Bag_reset (attrs : value) (guarded : bool) : M world self :=
  fresh <- on_heap (alloc (Obj Plain false [])) ;;
  set_attributes fresh ;;
  lodash_each attrs (fun v k => Bag_set k v ;; ret tt) ;;
  (if guarded then Bag_guard else ret this) ;;
  ret this.

Definition Bag_mutate (k : key) (v : value) : M world self :=
  isGuarded <- Bag_isGuarded ;;
  (if truthy isGuarded then Bag_unguard else ret this) ;;
  Bag_set k v ;;
  (if truthy isGuarded then Bag_guard else ret this) ;;
  ret this.

(** [get(key, defaults = null)]: an [undefined] second argument is the
    default [null]. *)
Definition Bag_get (k : key) (defaults : value) : M world value :=
  attrs <- reads attributes ;;
  reads (fun w => lodash_get (w_heap w) attrs k
                    (match defaults with VUndefined => VNull | d => d end)).

Definition Bag_forget (k : key) : M world self :=
  attrs <- reads attributes ;;
  on_heap (lodash_unset strict attrs k) ;;
  ret this.

Definition Bag_put (source : value) : M world self :=
  attrs <- reads attributes ;;
  on_heap (lodash_extend strict attrs source) ;;
  ret this.

Definition Bag_defaults (defaultAttributes : value) : M world self :=
  attrs <- reads attributes ;;
  on_heap (lodash_defaults strict attrs defaultAttributes) ;;
  ret this.

(** [new Bag(attributes, guarded, AttributeModel)] in the heap [h]: the
    instance starts without [attributes] and without an entry in
    [GuardedState]. *)
Definition Bag_new (h : heap) (attrs : value) (guarded : bool)
    (AM : option model) : outcome world self :=
  Bag_reset attrs guarded (World h VUndefined AM None).
End Bag.

(** ** Specification vocabulary *)

(** *** Relations between heaps *)

(** [h'] is [h] with some more objects frozen: what [freeze] may do. *)
Definition freezes_only (h h' : heap) : Prop :=
  List.length h' = List.length h /\
  forall l o, h !! l = Some o ->
    exists fz, h' !! l = Some (Obj (o_kind o) fz (o_props o)) /\
               (o_frozen o = true -> fz = true).

(** Every object of [h] is still there with its kind, and the frozen ones
    are unchanged: what a write through lodash may do. *)
Definition keeps_frozen (h h' : heap) : Prop :=
  forall l o, h !! l = Some o ->
    exists o', h' !! l = Some o' /\ o_kind o' = o_kind o /\
               (o_frozen o = true -> o' = o).

(** [h'] is [h] followed by new objects. *)
Definition extends (h h' : heap) : Prop :=
  forall l o, h !! l = Some o -> h' !! l = Some o.

(** *** Deeply frozen *)

(** [S] is a set of frozen objects that contains every plain mapping one of
    its members holds (and no member holds a dangling reference). *)
Definition frozen_closed (h : heap) (S : list loc) : Prop :=
  forall l, l ∈ S ->
    exists o, h !! l = Some o /\ o_frozen o = true /\
      forall k c, pget (o_props o) k = Some (VObj c) ->
                  is_Some (h !! c) /\
                  (isPlainObject h (VObj c) = true -> c ∈ S).

Definition deep_frozen (h : heap) (v : value) : Prop :=
  exists l S, v = VObj l /\ l ∈ S /\ frozen_closed h S.

(** *** Trees of plain mappings *)

(** A nested plain mapping as it lies in the heap: its plain objects with
    their locations and frozen flags; anything else (a primitive, a
    reference to an array or to an instance) is a leaf. *)
Inductive tree :=
| Leaf (v : value)
| Node (l : loc) (fz : bool) (kids : list (string * tree)).

Definition root (t : tree) : value :=
  match t with Leaf v => v | Node l _ _ => VObj l end.

Definition kid_props (kids : list (string * tree)) : list (string * value) :=
  map (fun kc => (fst kc, root (snd kc))) kids.

(** A leaf is not a plain mapping (and not a dangling reference). *)
Definition leaf_ok (h : heap) (v : value) : Prop :=
  match v with
  | VObj q => exists o, h !! q = Some o /\ o_kind o <> Plain
  | _ => True
  end.

Fixpoint shape (h : heap) (t : tree) : Prop :=
  match t with
  | Leaf v => leaf_ok h v
  | Node l fz kids =>
      h !! l = Some (Obj Plain fz (kid_props kids)) /\
      NoDup (map fst kids) /\
      fold_right (fun kc acc => shape h (snd kc) /\ acc) True kids
  end.

Fixpoint nodes (t : tree) : list loc :=
  match t with
  | Leaf _ => []
  | Node l _ kids => l :: concat (map (fun kc => nodes (snd kc)) kids)
  end.

Fixpoint depth (t : tree) : nat :=
  match t with
  | Leaf _ => 0
  | Node _ _ kids => S (fold_right Nat.max 0 (map (fun kc => depth (snd kc)) kids))
  end.

(** Every plain mapping of the tree has the frozen flag [b]. *)
Fixpoint flagged (b : bool) (t : tree) : Prop :=
  match t with
  | Leaf _ => True
  | Node _ fz kids =>
      fz = b /\ fold_right (fun kc acc => flagged b (snd kc) /\ acc) True kids
  end.

(** No mapping of the tree has an own property named [__proto__]. *)
Fixpoint proto_free (t : tree) : Prop :=
  match t with
  | Leaf _ => True
  | Node _ _ kids =>
("__proto__" ∉ map fst kids) /\
      fold_right (fun kc acc => proto_free (snd kc) /\ acc) True kids
  end.

(** The tree after [freeze]. *)
Fixpoint frozen_tree (t : tree) : tree :=
  match t with
  | Leaf v => Leaf v
  | Node l _ kids =>
      Node l true (map (fun kc => (fst kc, frozen_tree (snd kc))) kids)
  end.



Definition is_node (t : tree) : bool :=
  match t with Node _ _ _ => true | Leaf _ => false end.




(** *** Outcomes *)

(** [m] relates every state to the state it ends in, by return or by
    exception. *)
Definition preserves {S A} (R : S -> S -> Prop) (m : M S A) : Prop :=
  forall s, match m s with
            | Ret _ s' | Throw _ s' => R s s'
            | OutOfFuel => True
            end.

(** [m] needs no fuel. *)
Definition terminates {S A} (m : M S A) : Prop :=
  forall s, m s <> OutOfFuel.

(** The container's fields are those of [w]; the heap is related by [R]. *)
Definition same_bag (R : heap -> heap -> Prop) (w w' : world) : Prop :=
  R (w_heap w) (w_heap w') /\
  attributes w' = attributes w /\
  AttributeModel w' = AttributeModel w /\
  GuardedState w' = GuardedState w.

(** Every object of [h] is still there, with its kind. *)
Definition same_kinds (h h' : heap) : Prop :=
  forall q o, h !! q = Some o -> exists o', h' !! q = Some o' /\ o_kind o' = o_kind o.

(** The plain objects below the children. *)
Definition kid_nodes (kids : list (string * tree)) : list loc :=
  concat (map (fun kc => nodes (snd kc)) kids).



(** What a successful [freeze] of the tree [t] does: it returns its
    argument, leaves the tree frozen and touches nothing else. *)
Definition freezes (fuel : nat) (h : heap) (t : tree) : Prop :=
  exists h', freeze fuel (root t) h = Ret (root t) h' /\
             shape h' (frozen_tree t) /\
             (forall x, x ∉ nodes t -> h' !! x = h !! x).



(** [h'] is [h] followed by new objects, but for the object at [p]. *)
Definition extends_but (p : loc) (h h' : heap) : Prop :=
  forall x o, x <> p -> h !! x = Some o -> h' !! x = Some o.


(** *** Paths *)


Definition unfrozen_at (h : heap) (l : loc) : Prop :=
  exists o, h !! l = Some o /\ o_frozen o = false.















Fixpoint kget (kids : list (string * tree)) (k : string) : option tree :=
  match kids with
  | [] => None
  | (k', c) :: kids' => if String.eqb k' k then Some c else kget kids' k
  end.

(** *** The container, step by step *)

(** [convertToModel(v)] in the world [w]: the value stored and the heap
    after the construction of the wrapper, if any. *)
Definition converted (w : world) (v : value) : value * heap :=
  match AttributeModel w with
  | None => (v, w_heap w)
  | Some fields =>
      (VObj (List.length (w_heap w)),
       w_heap w ++ [Obj Instance false (instance_props (fields v))])
  end.

Definition with_heap (w : world) (h : heap) : world :=
  World h (attributes w) (AttributeModel w) (GuardedState w).

(** The guarded flag is what it was. *)
Definition same_flag (w w' : world) : Prop := GuardedState w' = GuardedState w.

(** The second argument of [get] after the default-parameter rule. *)
Definition fallback (defaults : value) : value :=
  match defaults with VUndefined => VNull | d => d end.

(** What [get] returns for a stored value [v]. *)
Definition or_fallback (v defaults : value) : value :=
  match v with VUndefined => fallback defaults | _ => v end.

(** *** Scenarios *)

(** A sequence of calls on the same container: the next call runs if the
    previous one returned. *)
Definition and_then {A B} (o : outcome world A) (m : M world B) : outcome world B :=
  match o with
  | Ret _ w => m w
  | Throw e w => Throw e w
  | OutOfFuel => OutOfFuel
  end.

Notation "o >>> m" := (and_then o m) (at level 50, left associativity).

(** The caller's [{a: {b: 1}}], at location 1. *)
Definition heap_a_b : heap :=
  [Obj Plain false [("b", VNum 1)]; Obj Plain false [("a", VObj 0)]].


(** The wrapper of the specification: [new Wrapper(v)] is [{raw: v}]. *)
Definition Wrapper : model := fun v => [("raw", v)].

(** The caller's [{}] at location 0 and [{a: 1}] at location 1. *)
Definition heap_defaults : heap :=
  [Obj Plain false []; Obj Plain false [("a", VNum 1)]].

(** The caller's [{}] at location 0 and [{y: 5}] at location 1. *)
Definition heap_y5 : heap :=
  [Obj Plain false []; Obj Plain false [("y", VNum 5)]].

(** [{a: {b: 1}}] of [heap_a_b] as a tree. *)
Definition tree_a_b : tree :=
  Node 1 false [("a", Node 0 false [("b", Leaf (VNum 1))])].

(** A tree of mutable plain mappings, none of them shared. *)
Definition mutable_tree (h : heap) (t : tree) : Prop :=
  shape h t /\ NoDup (nodes t) /\ flagged false t.

(** A frozen [{a: {}}] at location 1 (its inner mapping at 0), and the
    caller's [{}] at location 2. *)
Definition heap_frozen_value : heap :=
  [Obj Plain true []; Obj Plain true [("a", VObj 0)]; Obj Plain false []].



(** [{a: s, b: s}] at location 2, with [s = {c: {}}] at location 1. *)
Definition heap_shared_inner : heap :=
  [Obj Plain false []; Obj Plain false [("c", VObj 0)];
   Obj Plain false [("a", VObj 1); ("b", VObj 1)]].

(** [{['__proto__']: 1}], with [__proto__] as an own property. *)
Definition heap_own_proto : heap := [Obj Plain false [("__proto__", VNum 1)]].

(** [new Bag({a: {b: 1}}, true)] from [heap_a_b]: the attributes at
    location 2 hold the caller's inner mapping, both frozen. *)
Definition world_guarded_a_b : world :=
  World [Obj Plain true [("b", VNum 1)];
         Obj Plain false [("a", VObj 0)];
         Obj Plain true [("a", VObj 0)]]
        (VObj 2) None (Some true).

Definition tree_guarded_a_b : tree :=
  Node 2 true [("a", Node 0 true [("b", Leaf (VNum 1))])].

(** *** Direct writes *)



(** [m] returns, whatever the state. *)
Definition returns {S A} (m : M S A) : Prop :=
  forall s, exists a s', m s = Ret a s'.

(** *** Well-formed heaps and the guarded invariant *)

(** A reference is valid when the heap holds its object. *)
Definition valid_value (h : heap) (v : value) : Prop :=
  match v with VObj c => c < List.length h | _ => True end.

Definition valid_props (h : heap) (ps : list (string * value)) : Prop :=
  Forall (fun kv => valid_value h (snd kv)) ps.

(** No object holds a dangling reference. *)
Definition valid_refs (h : heap) : Prop :=
  forall l o, h !! l = Some o -> valid_props h (o_props o).

(** The fields a wrapper is given hold the wrapped value and constants. *)
Definition valid_model (fields : model) : Prop :=
  forall h v, valid_value h v -> valid_props h (fields v).

Definition valid_world (w : world) : Prop :=
  valid_refs (w_heap w) /\ valid_value (w_heap w) (attributes w) /\
  forall fields, AttributeModel w = Some fields -> valid_model fields.

(** The invariant of the specification: a container whose guarded flag is
    [true] has deeply frozen attributes. *)
Definition guarded_invariant (w : world) : Prop :=
  GuardedState w = Some true -> deep_frozen (w_heap w) (attributes w).

(** The state-changing operations of the container. *)
Inductive operation :=
| OSet (k : key) (v : value)
| OPut (source : value)
| OForget (k : key)
| ODefaults (source : value)
| OGuard
| OUnguard
| OMutate (k : key) (v : value)
| OReset (attrs : value) (guarded : bool).

(** The state an operation ends in, by return or by exception. *)
Definition final {A} (o : outcome world A) : option world :=
  match o with
  | Ret _ w | Throw _ w => Some w
  | OutOfFuel => None
  end.

Definition run (strict : bool) (fuel : nat) (op : operation) (w : world)
  : option world :=
  match op with
  | OSet k v => final (Bag_set strict k v w)
  | OPut source => final (Bag_put strict source w)
  | OForget k => final (Bag_forget strict k w)
  | ODefaults source => final (Bag_defaults strict source w)
  | OGuard => final (Bag_guard fuel w)
  | OUnguard => final (Bag_unguard fuel w)
  | OMutate k v => final (Bag_mutate strict fuel k v w)
  | OReset attrs guarded => final (Bag_reset strict fuel attrs guarded w)
  end.

(** The values the caller passes are values of the heap. *)
Definition valid_operation (h : heap) (op : operation) : Prop :=
  match op with
  | OSet _ v | OMutate _ v => valid_value h v
  | _ => True
  end.

(** Every operation but a [reset] of a guarded container. *)
Definition supported (op : operation) (w : world) : Prop :=
  match op with
  | OReset _ _ => GuardedState w <> Some true
  | _ => True
  end.

(** [h'] is [h], possibly with new objects, and well formed if [h] is and
    holds [v]. *)
Definition keeps_valid (v : value) (h h' : heap) : Prop :=
  List.length h <= List.length h' /\
  (valid_refs h -> valid_value h v -> valid_refs h').

(** One step of the container that leaves its fields alone: the frozen
    objects are unchanged, and the world stays well formed if it holds [v]. *)
Definition bag_step (v : value) (w w' : world) : Prop :=
  same_bag keeps_frozen w w' /\
  (valid_world w -> valid_value (w_heap w) v -> valid_world w').

(** What every supported operation keeps. *)
Definition sound (w : world) : Prop := valid_world w /\ guarded_invariant w.

(** The object at [x] is [o], as before. *)
Definition spares (x : loc) (o : object) (h h' : heap) : Prop :=
  h !! x = Some o -> h' !! x = Some o.

(** ** More of lodash and of the container *)

(** The last step of [hasPath]: an index below the length of an array
    counts as present, even where the array has a hole. *)
Definition array_hole (h : heap) (object : value) (k : string) : bool :=
  match object with
  | VObj l =>
      match h !! l with
      | Some o =>
          match o_kind o, index_of k with
          | Array, Some n => (n <? array_length (o_props o))%N
                             && (array_length (o_props o) <=? MAX_SAFE_INTEGER)%N
          | _, _ => false
          end
      | None => false
      end
  | _ => false
  end.

(** The loop of [hasPath(object, path, baseHas)]: every segment is an own
    property of the value reached so far. *)
Fixpoint hasPath_loop (h : heap) (object : value) (path : list string) : bool :=
  match path with
  | [] => false
  | k :: rest =>
      if negb (nullish object) && hasOwn h object k
      then match rest with
           | [] => true
           | _ => hasPath_loop h (get_prop h object k) rest
           end
      else match rest with
           | [] => array_hole h object k
           | _ => false
           end
  end.






Section Reading.
Variable strict : bool.


(** [all()]: [extend({}, this.attributes)] *)
Definition Bag_all : M world value :=
  attrs <- reads attributes ;;
  on_heap (copy <- alloc (Obj Plain false []) ;;
           lodash_extend strict copy attrs ;;
           ret copy).


End Reading.

(** *** Vocabulary for the further properties *)



(** *** More scenarios *)





(** [a = {}; a.self = a], at location 0. *)
Definition heap_self : heap := [Obj Plain false [("self", VObj 0)]].


(** * Proofs *)

(** ** Property lists *)

Lemma pget_pset_eq ps k v : pget (pset ps k v) k = Some v.
Proof.
  induction ps as [|[k' v'] ps IH]; simpl.
  - by rewrite String.eqb_refl.
  - destruct (String.eqb_spec k' k) as [->|Hne]; simpl.
    + by rewrite String.eqb_refl.
    + destruct (String.eqb_spec k' k); [done|]. exact IH.
Qed.

Lemma pget_pset_ne ps k k' v : k <> k' -> pget (pset ps k v) k' = pget ps k'.
Proof.
  intros Hne. induction ps as [|[k0 v0] ps IH]; simpl.
  - destruct (String.eqb_spec k k'); [done|]. reflexivity.
  - destruct (String.eqb_spec k0 k) as [->|Hk]; simpl.
    + destruct (String.eqb_spec k k'); [done|]. reflexivity.
    + destruct (String.eqb_spec k0 k'); [done|]. exact IH.
Qed.

Lemma pset_same ps k v : pget ps k = Some v -> pset ps k v = ps.
Proof.
  induction ps as [|[k0 v0] ps IH]; simpl; [done|].
  destruct (String.eqb_spec k0 k) as [->|Hk].
  - by intros [= ->].
  - intros H. by rewrite IH.
Qed.

Lemma pget_None ps k : pget ps k = None <-> k ∉ map fst ps.
Proof.
  induction ps as [|[k0 v0] ps IH]; simpl.
  - split; [intros _; apply not_elem_of_nil | done].
  - rewrite not_elem_of_cons. destruct (String.eqb_spec k0 k) as [->|Hk].
    + split; [done | intros [? _]; done].
    + rewrite IH. split; [intros ?; split; [congruence | done] | intros [_ ?]; done].
Qed.

Lemma pget_Some_elem ps k v : pget ps k = Some v -> k ∈ map fst ps.
Proof.
  intros H. destruct (decide (k ∈ map fst ps)) as [|Hn]; [done|].
  apply pget_None in Hn. congruence.
Qed.

Lemma pset_fresh ps k v : k ∉ map fst ps -> pset ps k v = ps ++ [(k, v)].
Proof.
  induction ps as [|[k0 v0] ps IH]; simpl; [done|].
  rewrite not_elem_of_cons. intros [Hne Hn].
  destruct (String.eqb_spec k0 k); [congruence|]. by rewrite IH.
Qed.


Lemma pget_kid_props kids k c :
  NoDup (map fst kids) -> (k, c) ∈ kids -> pget (kid_props kids) k = Some (root c).
Proof.
  induction kids as [|[k0 c0] kids IH]; simpl.
  - intros _ H. by apply elem_of_nil in H.
  - rewrite NoDup_cons. intros [Hn Hnd] Hin.
    apply elem_of_cons in Hin as [[= -> ->]|Hin].
    + by rewrite String.eqb_refl.
    + destruct (String.eqb_spec k0 k) as [->|Hk].
      * exfalso. apply Hn. apply list_elem_of_fmap. by exists (k, c).
      * by apply IH.
Qed.

Lemma kid_props_keys kids : map fst (kid_props kids) = map fst kids.
Proof. unfold kid_props. rewrite map_map. reflexivity. Qed.

Lemma pget_kid_props_kget kids k :
  pget (kid_props kids) k = option_map root (kget kids k).
Proof.
  induction kids as [|[k' c] kids IH]; [done|]. cbn [kid_props map fst snd pget kget].
  destruct (String.eqb k' k); [done|]. exact IH.
Qed.


(** ** The path syntax *)

(** *** Paths without brackets *)












(** *** A segment of a deep path is not the whole string *)


Lemma span_fst_forall p s c : has_char c (fst (span p s)) = true -> p c = true.
Proof.
  induction s as [|c' s IH]; [done|]. cbn [span].
  destruct (p c') eqn:E; cbn [fst has_char]; [|done].
  destruct (Ascii.eqb_spec c' c) as [->|]; [done|]. exact IH.
Qed.











(** A string that is no path is a single key. *)
Lemma castPath_key h s object : reIsDeepProp s = false -> castPath h (KStr s) object = [s].
Proof. intros H. unfold castPath. by rewrite H. Qed.


Lemma lodash_eq_spec a b : reflect (a = b) (lodash_eq a b).
Proof.
  destruct a, b; simpl; try (constructor; congruence).
  - destruct (Bool.eqb_spec b0 b); constructor; congruence.
  - destruct (Z.eqb_spec n n0); constructor; congruence.
  - destruct (String.eqb_spec s s0); constructor; congruence.
  - destruct (Nat.eqb_spec l l0); constructor; congruence.
Qed.

(** ** Heap relations are preorders *)

Lemma freezes_only_refl h : freezes_only h h.
Proof.
  split; [done|]. intros l o H. exists (o_frozen o). by destruct o.
Qed.

Lemma freezes_only_trans h1 h2 h3 :
  freezes_only h1 h2 -> freezes_only h2 h3 -> freezes_only h1 h3.
Proof.
  intros [L1 H1] [L2 H2]. split; [congruence|].
  intros l o Hl. destruct (H1 l o Hl) as (fz & Hfz & Hm).
  destruct (H2 l _ Hfz) as (fz' & Hfz' & Hm'). simpl in *.
  exists fz'. split; [done|]. auto.
Qed.

Lemma keeps_frozen_refl h : keeps_frozen h h.
Proof. intros l o H. by exists o. Qed.

Lemma keeps_frozen_trans h1 h2 h3 :
  keeps_frozen h1 h2 -> keeps_frozen h2 h3 -> keeps_frozen h1 h3.
Proof.
  intros H1 H2 l o Hl. destruct (H1 l o Hl) as (o1 & Hl1 & Hk1 & Hf1).
  destruct (H2 l o1 Hl1) as (o2 & Hl2 & Hk2 & Hf2).
  exists o2. split; [done|]. split; [congruence|].
  intros Hfz. specialize (Hf1 Hfz). subst o1. auto.
Qed.

Lemma extends_refl h : extends h h.
Proof. by intros l o. Qed.

Lemma extends_trans h1 h2 h3 : extends h1 h2 -> extends h2 h3 -> extends h1 h3.
Proof. intros H1 H2 l o Hl. auto. Qed.

Lemma extends_app h ext : extends h (h ++ ext).
Proof. intros l o Hl. by apply lookup_app_l_Some. Qed.


Lemma extends_keeps_frozen h h' : extends h h' -> keeps_frozen h h'.
Proof. intros H l o Hl. exists o. auto. Qed.

Lemma freezes_only_isPlainObject h h' v :
  freezes_only h h' -> isPlainObject h' v = isPlainObject h v.
Proof.
  intros [L H]. destruct v; try done.
  unfold isPlainObject, own_prop, ownKeys.
  destruct (h !! l) as [o|] eqn:E.
  - destruct (H l o E) as (fz & -> & _). reflexivity.
  - apply lookup_ge_None in E. rewrite (proj2 (lookup_ge_None h' l)); [done|lia].
Qed.

Lemma freezes_only_own_prop h h' v k :
  freezes_only h h' -> own_prop h' v k = own_prop h v k.
Proof.
  intros [L H]. destruct v; try done.
  unfold isPlainObject, own_prop, ownKeys.
  destruct (h !! l) as [o|] eqn:E.
  - destruct (H l o E) as (fz & -> & _). reflexivity.
  - apply lookup_ge_None in E. rewrite (proj2 (lookup_ge_None h' l)); [done|lia].
Qed.

Lemma freezes_only_get_prop h h' v k :
  freezes_only h h' -> get_prop h' v k = get_prop h v k.
Proof. intros H. unfold get_prop. by rewrite (freezes_only_own_prop h h'). Qed.

Lemma freezes_only_ownKeys h h' v :
  freezes_only h h' -> ownKeys h' v = ownKeys h v.
Proof.
  intros [L H]. destruct v; try done.
  unfold isPlainObject, own_prop, ownKeys.
  destruct (h !! l) as [o|] eqn:E.
  - destruct (H l o E) as (fz & -> & _). reflexivity.
  - apply lookup_ge_None in E. rewrite (proj2 (lookup_ge_None h' l)); [done|lia].
Qed.

(** ** Reasoning about outcomes *)

Section Preserves.
Context {S : Type} (R : S -> S -> Prop).
Hypothesis R_refl : forall s, R s s.
Hypothesis R_trans : forall s1 s2 s3, R s1 s2 -> R s2 s3 -> R s1 s3.

Lemma preserves_ret {A} (a : A) : preserves R (ret a).
Proof. intros s. apply R_refl. Qed.

Lemma preserves_throw {A} e : preserves R (@throw S A e).
Proof. intros s. apply R_refl. Qed.

Lemma preserves_diverge {A} : preserves R (@diverge S A).
Proof. by intros s. Qed.

Lemma preserves_reads {A} (f : S -> A) : preserves R (reads f).
Proof. intros s. apply R_refl. Qed.

Lemma preserves_bind {A B} (m : M S A) (k : A -> M S B) :
  preserves R m -> (forall a, preserves R (k a)) -> preserves R (bind m k).
Proof.
  intros Hm Hk s. unfold bind. specialize (Hm s).
  destruct (m s) as [a s'| |]; [|done|done].
  specialize (Hk a s'). destruct (k a s'); eauto.
Qed.

Lemma preserves_for_each {A} (xs : list A) (body : A -> M S unit) :
  (forall x, preserves R (body x)) -> preserves R (for_each xs body).
Proof.
  intros Hb. induction xs as [|x xs IH]; simpl.
  - apply preserves_ret.
  - apply preserves_bind; [apply Hb | intros _; exact IH].
Qed.
End Preserves.

Lemma terminates_ret {S A} (a : A) : terminates (@ret S A a).
Proof. by intros s. Qed.

Lemma terminates_reads {S A} (f : S -> A) : terminates (reads f).
Proof. by intros s. Qed.

Lemma terminates_bind {S A B} (m : M S A) (k : A -> M S B) :
  terminates m -> (forall a, terminates (k a)) -> terminates (bind m k).
Proof.
  intros Hm Hk s. unfold bind. specialize (Hm s).
  destruct (m s) as [a s'| |]; [apply Hk|done|done].
Qed.

Lemma terminates_for_each {S A} (xs : list A) (body : A -> M S unit) :
  (forall x, terminates (body x)) -> terminates (for_each xs body).
Proof.
  intros Hb. induction xs as [|x xs IH]; simpl.
  - apply terminates_ret.
  - apply terminates_bind; [apply Hb | intros _; exact IH].
Qed.

Create HintDb heap.
#[local] Hint Resolve keeps_frozen_refl keeps_frozen_trans : heap.
#[local] Hint Resolve freezes_only_refl freezes_only_trans : heap.
#[local] Hint Resolve extends_refl extends_trans : heap.

(** ** The writes of lodash keep frozen objects as they are *)

Lemma keeps_frozen_insert h l o o' :
  h !! l = Some o -> o_frozen o = false -> o_kind o' = o_kind o ->
  keeps_frozen h (<[l := o']> h).
Proof.
  intros Hl Hfz Hk x ox Hx. destruct (decide (x = l)) as [->|Hne].
  - exists o'. rewrite list_lookup_insert_eq; [|by eapply lookup_lt_Some].
    assert (ox = o) as -> by congruence.
    split; [done|]. split; [done|]. congruence.
  - exists ox. by rewrite list_lookup_insert_ne.
Qed.

Lemma put_keeps_frozen strict target k v : preserves keeps_frozen (put strict target k v).
Proof.
  intros h. unfold put. destruct target; try solve [destruct strict; auto with heap].
  destruct (h !! l) as [o|] eqn:E; [|auto with heap].
  destruct (o_frozen o) eqn:F; [destruct strict; auto with heap|].
  by eapply keeps_frozen_insert.
Qed.

Lemma put_terminates strict target k v : terminates (put strict target k v).
Proof.
  intros h. unfold put. destruct target; try (by destruct strict).
  destruct (h !! l) as [o|]; [|done]. by destruct (o_frozen o), strict.
Qed.

Lemma delete_prop_keeps_frozen strict target k :
  preserves keeps_frozen (delete_prop strict target k).
Proof.
  intros h. unfold delete_prop. destruct target; auto with heap.
  - destruct (string_prop s k); [destruct strict|]; auto with heap.
  - destruct (h !! l) as [o|] eqn:E; [|auto with heap].
    destruct (pget (o_props o) k); [|auto with heap].
    destruct (o_frozen o) eqn:F; [destruct strict; auto with heap|].
    by eapply keeps_frozen_insert.
Qed.


Lemma alloc_extends o : preserves extends (alloc o).
Proof. intros h. apply extends_app. Qed.

Lemma alloc_keeps_frozen o : preserves keeps_frozen (alloc o).
Proof. intros h. apply extends_keeps_frozen, extends_app. Qed.

Lemma assignValue_keeps_frozen strict object k v :
  preserves keeps_frozen (assignValue strict object k v).
Proof.
  intros h. unfold assignValue.
  destruct (hasOwn h object k && lodash_eq (get_prop h object k) v);
    [auto with heap | apply put_keeps_frozen].
Qed.

Lemma assignValue_terminates strict object k v :
  terminates (assignValue strict object k v).
Proof.
  intros h. unfold assignValue.
  destruct (hasOwn h object k && lodash_eq (get_prop h object k) v);
    [done | apply put_terminates].
Qed.

Lemma baseSet_loop_keeps_frozen strict path v nested :
  preserves keeps_frozen (baseSet_loop strict path v nested).
Proof.
  revert nested. induction path as [|k rest IH]; intros nested; simpl.
  - apply preserves_ret; auto with heap.
  - destruct (nullish nested); [apply preserves_ret; auto with heap|].
    destruct (unsafe_key k); [apply preserves_ret; auto with heap|].
    destruct rest as [|next rest']; [apply assignValue_keeps_frozen|].
    apply preserves_bind; eauto with heap.
    { apply preserves_reads; auto with heap. }
    intros objValue. apply preserves_bind; eauto with heap.
    { destruct (isObject objValue);
        [apply preserves_ret; auto with heap | apply alloc_keeps_frozen]. }
    intros newValue. apply preserves_bind; eauto with heap.
    { apply assignValue_keeps_frozen. }
    intros _. apply preserves_bind; eauto with heap.
    apply preserves_reads; auto with heap.
Qed.

Lemma baseSet_loop_terminates strict path v nested :
  terminates (baseSet_loop strict path v nested).
Proof.
  revert nested. induction path as [|k rest IH]; intros nested; simpl.
  - apply terminates_ret.
  - destruct (nullish nested); [apply terminates_ret|].
    destruct (unsafe_key k); [apply terminates_ret|].
    destruct rest as [|next rest']; [apply assignValue_terminates|].
    apply terminates_bind; [apply terminates_reads|].
    intros objValue. apply terminates_bind.
    { destruct (isObject objValue); [apply terminates_ret | by intros h]. }
    intros newValue. apply terminates_bind; [apply assignValue_terminates|].
    intros _. apply terminates_bind; [apply terminates_reads | auto].
Qed.

Lemma lodash_set_keeps_frozen strict object k v :
  preserves keeps_frozen (lodash_set strict object k v).
Proof.
  intros h. unfold lodash_set. destruct (isObject object); [|auto with heap].
  apply baseSet_loop_keeps_frozen.
Qed.

Lemma lodash_set_terminates strict object k v : terminates (lodash_set strict object k v).
Proof.
  intros h. unfold lodash_set. destruct (isObject object); [|done].
  apply baseSet_loop_terminates.
Qed.

Lemma lodash_unset_keeps_frozen strict object k :
  preserves keeps_frozen (lodash_unset strict object k).
Proof.
  intros h. unfold lodash_unset. destruct (nullish object); [auto with heap|].
  match goal with |- context [nullish ?p] => destruct (nullish p) end;
    [auto with heap | apply delete_prop_keeps_frozen].
Qed.


Lemma lodash_extend_keeps_frozen strict object source :
  preserves keeps_frozen (lodash_extend strict object source).
Proof.
  intros h. unfold lodash_extend. destruct (truthy source); [|auto with heap].
  apply preserves_for_each; eauto with heap. intros k.
  apply preserves_bind; eauto with heap.
  - apply preserves_reads; auto with heap.
  - intros nv. apply assignValue_keeps_frozen.
Qed.


Lemma lodash_defaults_keeps_frozen strict object source :
  preserves keeps_frozen (lodash_defaults strict object source).
Proof.
  intros h. unfold lodash_defaults.
  apply preserves_for_each; eauto with heap. intros k.
  apply preserves_bind; eauto with heap.
  - apply preserves_reads; auto with heap.
  - intros fill. destruct fill; [|apply preserves_ret; auto with heap].
    apply preserves_bind; eauto with heap.
    + apply preserves_reads; auto with heap.
    + intros sv. apply put_keeps_frozen.
Qed.

Lemma lodash_defaults_terminates strict object source :
  terminates (lodash_defaults strict object source).
Proof.
  intros h. unfold lodash_defaults.
  apply terminates_for_each. intros k.
  apply terminates_bind; [apply terminates_reads|]. intros fill.
  destruct fill; [|apply terminates_ret].
  apply terminates_bind; [apply terminates_reads|]. intros sv.
  apply put_terminates.
Qed.

(** ** [freeze] only sets frozen flags *)

Lemma get_prop_obj_own h v k c : get_prop h v k = VObj c -> own_prop h v k = Some (VObj c).
Proof. unfold get_prop. destruct (own_prop h v k); [by intros ->|done]. Qed.

Lemma isPlainObject_obj h v : isPlainObject h v = true -> exists c, v = VObj c.
Proof. destruct v; try done. eauto. Qed.

(** Writing back the value a property already has changes nothing. *)
Lemma put_same strict target k v h :
  own_prop h target k = Some v ->
  match put strict target k v h with
  | Ret _ h' | Throw _ h' => h' = h
  | OutOfFuel => False
  end.
Proof.
  unfold put, own_prop. destruct target; try (by destruct strict).
  destruct (h !! l) as [o|] eqn:E; [|done]. intros Hp.
  destruct (o_frozen o) eqn:F; [by destruct strict|].
  rewrite (pset_same _ _ _ Hp). apply list_insert_id.
  rewrite E. f_equal. destruct o; simpl in *. by subst.
Qed.

Lemma Object_freeze_freezes_only target h :
  match Object_freeze target h with
  | Ret r h' => r = target /\ freezes_only h h'
  | _ => False
  end.
Proof.
  unfold Object_freeze. destruct target; try (split; [done | apply freezes_only_refl]).
  destruct (h !! l) as [o|] eqn:E; [|split; [done | apply freezes_only_refl]].
  split; [done|]. split; [apply length_insert|].
  intros x ox Hx. destruct (decide (x = l)) as [->|Hne].
  - rewrite list_lookup_insert_eq; [|by eapply lookup_lt_Some].
    assert (ox = o) as -> by congruence. by exists true.
  - rewrite list_lookup_insert_ne; [|done]. exists (o_frozen ox).
    split; [by destruct ox|done].
Qed.

Lemma freeze_key_freezes_only rec object :
  (forall v h, match rec v h with
               | Ret r h' => r = v /\ freezes_only h h'
               | Throw _ h' => freezes_only h h'
               | OutOfFuel => True
               end) ->
  forall key, preserves freezes_only (freeze_key rec object key).
Proof.
  intros IH key h0. unfold freeze_key, bind, reads.
  destruct (isPlainObject h0 (get_prop h0 object key)) eqn:P;
    [|apply freezes_only_refl].
  destruct (isPlainObject_obj _ _ P) as [c Hc].
  specialize (IH (get_prop h0 object key) h0).
  destruct (rec (get_prop h0 object key) h0) as [r h1| |]; [|done|done].
  destruct IH as [-> Hfo].
  pose proof (put_same true object key (get_prop h0 object key) h1) as Hput.
  rewrite (freezes_only_own_prop h0 h1) in Hput by done.
  assert (own_prop h0 object key = Some (get_prop h0 object key)) as Hown
    by (rewrite Hc; by apply get_prop_obj_own).
  specialize (Hput Hown).
  destruct (put true object key (get_prop h0 object key) h1); by subst.
Qed.

Lemma freeze_freezes_only fuel : forall object h,
  match freeze fuel object h with
  | Ret r h' => r = object /\ freezes_only h h'
  | Throw _ h' => freezes_only h h'
  | OutOfFuel => True
  end.
Proof.
  induction fuel as [|fuel IH]; intros object h; [done|].
  cbn [freeze]. unfold bind at 1.
  destruct object; try apply freezes_only_refl.
  cbn [Reflect_ownKeys]. unfold bind at 1.
  pose proof (preserves_for_each freezes_only freezes_only_refl freezes_only_trans
                (ownKeys h (VObj l)) _ (freeze_key_freezes_only _ (VObj l) IH) h) as Hloop.
  destruct (for_each (ownKeys h (VObj l)) (freeze_key (freeze fuel) (VObj l)) h)
    as [[] h1| |]; [|done|done].
  pose proof (Object_freeze_freezes_only (VObj l) h1) as HO.
  destruct (Object_freeze (VObj l) h1) as [r h2| |]; [|done|done].
  destruct HO as [-> HO]. split; [done|]. eauto with heap.
Qed.

(** ** Trees *)

Lemma fold_right_and {A} (P : A -> Prop) (l : list A) :
  fold_right (fun x acc => P x /\ acc) True l <-> Forall P l.
Proof.
  induction l as [|x l IH]; simpl.
  - split; [constructor | done].
  - rewrite Forall_cons, IH. done.
Qed.

Lemma shape_Node h l fz kids :
  shape h (Node l fz kids) <->
  h !! l = Some (Obj Plain fz (kid_props kids)) /\
  NoDup (map fst kids) /\
  Forall (fun kc => shape h (snd kc)) kids.
Proof.
  cbn [shape]. rewrite (fold_right_and (fun kc => shape h (snd kc))). done.
Qed.

Lemma flagged_Node b l fz kids :
  flagged b (Node l fz kids) <-> fz = b /\ Forall (fun kc => flagged b (snd kc)) kids.
Proof.
  cbn [flagged]. rewrite (fold_right_and (fun kc => flagged b (snd kc))). done.
Qed.


Lemma nodes_Node l fz kids : nodes (Node l fz kids) = l :: kid_nodes kids.
Proof. reflexivity. Qed.

Lemma kid_nodes_cons k c kids : kid_nodes ((k, c) :: kids) = nodes c ++ kid_nodes kids.
Proof. reflexivity. Qed.


Lemma elem_of_kid_nodes x kids :
  x ∈ kid_nodes kids <-> exists kc, kc ∈ kids /\ x ∈ nodes (snd kc).
Proof.
  unfold kid_nodes. rewrite list_elem_of_In, in_concat. split.
  - intros (ns & Hns & Hx). apply in_map_iff in Hns as (kc & <- & Hkc).
    exists kc. by rewrite !list_elem_of_In.
  - intros (kc & Hkc & Hx). exists (nodes (snd kc)).
    rewrite <- !list_elem_of_In. split; [|done].
    apply list_elem_of_fmap. by exists kc.
Qed.

Lemma depth_Node l fz kids :
  depth (Node l fz kids) = S (fold_right Nat.max 0 (map (fun kc => depth (snd kc)) kids)).
Proof. reflexivity. Qed.

Lemma depth_kid l fz kids kc : kc ∈ kids -> depth (snd kc) < depth (Node l fz kids).
Proof.
  intros Hin. rewrite depth_Node.
  assert (depth (snd kc) <= fold_right Nat.max 0 (map (fun kc => depth (snd kc)) kids)); [|lia].
  induction kids as [|kc' kids IH]; [by apply elem_of_nil in Hin|].
  cbn [map fold_right].
  apply elem_of_cons in Hin as [->|Hin]; [lia|].
  specialize (IH Hin). lia.
Qed.

Lemma tree_ind' (P : tree -> Prop) :
  (forall v, P (Leaf v)) ->
  (forall l fz kids, Forall (fun kc => P (snd kc)) kids -> P (Node l fz kids)) ->
  forall t, P t.
Proof.
  intros HL HN. fix IH 1. intros [v|l fz kids]; [apply HL|].
  apply HN. induction kids as [|[k c] kids IHk]; constructor; [apply IH | exact IHk].
Qed.

Lemma freezes_only_same_kinds h h' : freezes_only h h' -> same_kinds h h'.
Proof.
  intros [_ H] q o Hq. destruct (H q o Hq) as (fz & Hfz & _). eauto.
Qed.


Lemma extends_same_kinds h h' : extends h h' -> same_kinds h h'.
Proof. intros H q o Hq. eauto. Qed.



Lemma same_kinds_insert h l o o' :
  h !! l = Some o -> o_kind o' = o_kind o -> same_kinds h (<[l := o']> h).
Proof.
  intros Hl Hk x ox Hx. destruct (decide (x = l)) as [->|Hne].
  - exists o'. rewrite list_lookup_insert_eq; [|by eapply lookup_lt_Some].
    split; [done|congruence].
  - exists ox. by rewrite list_lookup_insert_ne.
Qed.

Lemma leaf_ok_same_kinds h h' v : same_kinds h h' -> leaf_ok h v -> leaf_ok h' v.
Proof.
  intros H. destruct v; try done. intros (o & Hq & Hk).
  destruct (H l o Hq) as (o' & Hq' & Hk'). exists o'. split; [done|congruence].
Qed.

Lemma leaf_ok_not_plain h v : leaf_ok h v -> isPlainObject h v = false.
Proof.
  destruct v; try done. intros (o & Hq & Hk). unfold isPlainObject.
  rewrite Hq. by destruct (o_kind o).
Qed.

(** The shape of a tree depends on its own objects and on the kinds only. *)
Lemma shape_preserved h h' t :
  same_kinds h h' ->
  shape h t -> (forall x, x ∈ nodes t -> h' !! x = h !! x) -> shape h' t.
Proof.
  intros Hk. induction t as [v|l fz kids IH] using tree_ind'.
  - intros Hs _. by eapply leaf_ok_same_kinds.
  - rewrite !shape_Node, nodes_Node. intros (Hl & Hnd & Hkids) Hfr.
    split; [rewrite Hfr; [done | apply elem_of_cons; by left]|].
    split; [done|].
    rewrite Forall_forall in IH, Hkids. apply Forall_forall. intros kc Hin.
    apply IH; [done | by apply Hkids|].
    intros x Hx. apply Hfr. apply elem_of_cons. right.
    apply elem_of_kid_nodes. eauto.
Qed.

Lemma root_frozen_tree t : root (frozen_tree t) = root t.
Proof. by destruct t. Qed.

Lemma kid_props_frozen kids :
  kid_props (map (fun kc => (fst kc, frozen_tree (snd kc))) kids) = kid_props kids.
Proof.
  unfold kid_props. rewrite map_map. apply map_ext. intros [k c]. simpl.
  by rewrite root_frozen_tree.
Qed.

Lemma nodes_frozen_tree t : nodes (frozen_tree t) = nodes t.
Proof.
  induction t as [v|l fz kids IH] using tree_ind'; [done|].
  cbn [frozen_tree]. rewrite !nodes_Node. f_equal.
  unfold kid_nodes. rewrite map_map. f_equal.
  apply map_ext_Forall. exact IH.
Qed.

Lemma get_prop_lookup h l o k :
  h !! l = Some o ->
  get_prop h (VObj l) k = match pget (o_props o) k with Some x => x | None => VUndefined end.
Proof. intros H. unfold get_prop, own_prop. by rewrite H. Qed.

Lemma ownKeys_lookup h l o : h !! l = Some o -> ownKeys h (VObj l) = map fst (o_props o).
Proof. intros H. unfold ownKeys. by rewrite H. Qed.

Lemma shape_root_plain h t : shape h t -> isPlainObject h (root t) = is_node t.
Proof.
  destruct t as [v|l fz kids].
  - apply leaf_ok_not_plain.
  - rewrite shape_Node. intros (Hl & _). cbn [root is_node]. unfold isPlainObject.
    by rewrite Hl.
Qed.

Lemma for_each_cons {S A} (x : A) xs (body : A -> M S unit) s :
  for_each (x :: xs) body s =
  match body x s with
  | Ret _ s' => for_each xs body s'
  | Throw e s' => Throw e s'
  | OutOfFuel => OutOfFuel
  end.
Proof. reflexivity. Qed.

Lemma freeze_key_eq rec object key h :
  freeze_key rec object key h =
  if isPlainObject h (get_prop h object key)
  then match rec (get_prop h object key) h with
       | Ret a s' => put true object key a s'
       | Throw e s' => Throw e s'
       | OutOfFuel => OutOfFuel
       end
  else Ret tt h.
Proof.
  unfold freeze_key, bind, reads.
  by destruct (isPlainObject h (get_prop h object key)).
Qed.

Lemma freeze_S fuel object h :
  freeze (S fuel) object h =
  match Reflect_ownKeys object h with
  | Ret keys h0 =>
      match for_each keys (freeze_key (freeze fuel) object) h0 with
      | Ret _ h1 => Object_freeze object h1
      | Throw e h1 => Throw e h1
      | OutOfFuel => OutOfFuel
      end
  | Throw e h0 => Throw e h0
  | OutOfFuel => OutOfFuel
  end.
Proof. reflexivity. Qed.

(** ** [freeze] succeeds on a tree of mutable plain mappings *)

Lemma freeze_tree_loop fuel l props : forall todo h,
  h !! l = Some (Obj Plain false props) ->
  (forall kc, kc ∈ todo -> pget props (fst kc) = Some (root (snd kc))) ->
  Forall (fun kc => shape h (snd kc)) todo ->
  NoDup (l :: kid_nodes todo) ->
  Forall (fun kc => forall h, shape h (snd kc) -> is_node (snd kc) = true ->
                    freezes fuel h (snd kc)) todo ->
  exists h', for_each (map fst todo) (freeze_key (freeze fuel) (VObj l)) h = Ret tt h' /\
             Forall (fun kc => shape h' (frozen_tree (snd kc))) todo /\
             (forall x, x ∉ kid_nodes todo -> h' !! x = h !! x) /\
             freezes_only h h'.
Proof.
  induction todo as [|[k c] rest IH]; intros h Hl Hget Hsh Hnd Hfr.
  - exists h. split; [done|]. split; [constructor|]. split; [done|].
    apply freezes_only_refl.
  - apply Forall_cons in Hsh as [Hc Hrest]. apply Forall_cons in Hfr as [Hfc Hfrest].
    cbn [fst snd] in *. rewrite kid_nodes_cons in Hnd.
    apply NoDup_cons in Hnd as [Hl_notin Hnd]. apply NoDup_app in Hnd as (Hndc & Hdisj & Hndr).
    rewrite not_elem_of_app in Hl_notin. destruct Hl_notin as [Hlc Hlr].
    cbn [map fst]. rewrite for_each_cons, freeze_key_eq.
    rewrite (get_prop_lookup h l _ k Hl). cbn [o_props].
    pose proof (Hget (k, c) ltac:(apply elem_of_cons; by left)) as Hk.
    cbn [fst snd] in Hk. rewrite Hk.
    rewrite (shape_root_plain h c Hc).
    assert (exists h1, (if is_node c
              then match freeze fuel (root c) h with
                   | Ret a s' => put true (VObj l) k a s'
                   | Throw e s' => Throw e s'
                   | OutOfFuel => OutOfFuel
                   end
              else Ret tt h) = Ret tt h1 /\
              shape h1 (frozen_tree c) /\
              (forall x, x ∉ nodes c -> h1 !! x = h !! x) /\
              freezes_only h h1) as (h1 & -> & Hc1 & Hframe1 & Hfo1).
    { destruct (is_node c) eqn:N.
      - destruct (Hfc h Hc eq_refl) as (h1 & Hfz & Hs1 & Hframe).
        exists h1. rewrite Hfz.
        pose proof (freeze_freezes_only fuel (root c) h) as Hfo. rewrite Hfz in Hfo.
        destruct Hfo as [_ Hfo].
        split; [|split_and!; done].
        pose proof (put_same true (VObj l) k (root c) h1) as Hput.
        rewrite (freezes_only_own_prop h h1) in Hput by done.
        unfold own_prop in Hput at 1. rewrite Hl in Hput. cbn [o_props] in Hput.
        specialize (Hput Hk).
        unfold put in *. rewrite (Hframe l Hlc), Hl in *. cbn [o_frozen] in *.
        by rewrite Hput.
      - exists h. destruct c; [|done]. split; [done|]. split; [done|].
        split; [done | apply freezes_only_refl]. }
    destruct (IH h1) as (h' & Hloop & Hsh' & Hframe' & Hfo').
    + by rewrite (Hframe1 l Hlc).
    + intros kc Hin. apply Hget. apply elem_of_cons. by right.
    + rewrite Forall_forall in Hrest. apply Forall_forall. intros kc Hin.
      apply (shape_preserved h h1); [by apply freezes_only_same_kinds | by apply Hrest|].
      intros x Hx. apply Hframe1. intros Hxc. apply (Hdisj x Hxc).
      apply elem_of_kid_nodes. eauto.
    + by apply NoDup_cons.
    + done.
    + exists h'. split; [done|]. split; [|split].
      * constructor; [|done]. cbn [snd].
        apply (shape_preserved h1 h'); [by apply freezes_only_same_kinds | done|].
        intros x Hx. apply Hframe'. rewrite nodes_frozen_tree in Hx.
        intros Hxr. by apply (Hdisj x).
      * intros x Hx. rewrite kid_nodes_cons, not_elem_of_app in Hx.
        destruct Hx as [Hxc Hxr]. rewrite Hframe' by done. by apply Hframe1.
      * by eapply freezes_only_trans.
Qed.

Lemma freeze_tree t : forall fuel h,
  shape h t -> NoDup (nodes t) -> flagged false t -> depth t <= fuel ->
  is_node t = true -> freezes fuel h t.
Proof.
  induction t as [v|l fz kids IH] using tree_ind'; [done|].
  intros fuel h Hs Hnd Hfl Hd _. rewrite depth_Node in Hd.
  destruct fuel as [|fuel]; [lia|].
  pose proof Hs as Hs0.
  apply shape_Node in Hs as (Hl & Hkeys & Hkids).
  apply flagged_Node in Hfl as (-> & Hflk).
  rewrite nodes_Node in Hnd.
  destruct (freeze_tree_loop fuel l (kid_props kids) kids h) as (h1 & Hloop & Hsh1 & Hframe1 & Hfo1).
  - done.
  - intros [k c] Hin. by apply pget_kid_props.
  - done.
  - done.
  - rewrite Forall_forall in IH, Hflk, Hkids. apply Forall_forall. intros kc Hin h0 Hs' Hn.
    apply IH; try done.
    + apply NoDup_cons in Hnd as [_ Hnd]. clear -Hnd Hin.
      induction kids as [|kc' kids IHk]; [by apply elem_of_nil in Hin|].
      destruct kc' as [k' c']. rewrite kid_nodes_cons in Hnd.
      apply NoDup_app in Hnd as (? & _ & ?).
      apply elem_of_cons in Hin as [->|Hin]; [done | by apply IHk].
    + by apply Hflk.
    + pose proof (depth_kid l false kids kc Hin) as Hlt. rewrite depth_Node in Hlt. lia.
  - apply NoDup_cons in Hnd as [Hl_notin Hnd].
    unfold freezes. cbn [root]. rewrite freeze_S. cbn [Reflect_ownKeys].
    rewrite (ownKeys_lookup h l _ Hl). cbn [o_props]. rewrite kid_props_keys.
    rewrite Hloop.
    unfold Object_freeze. rewrite (Hframe1 l Hl_notin), Hl. cbn [o_kind o_props].
    eexists. split; [reflexivity|].
    assert (same_kinds h1 (<[l:=Obj Plain true (kid_props kids)]> h1)) as Hsk.
    { eapply same_kinds_insert; [by rewrite (Hframe1 l Hl_notin)|done]. }
    split.
    + cbn [frozen_tree]. apply shape_Node. split; [|split].
      * rewrite kid_props_frozen. apply list_lookup_insert_eq.
        eapply lookup_lt_Some. by rewrite (Hframe1 l Hl_notin).
      * by rewrite map_map.
      * apply Forall_map. cbn [snd]. rewrite Forall_forall in Hsh1. apply Forall_forall.
        intros kc Hin. apply (shape_preserved h1); [done | by apply Hsh1|].
        intros x Hx. apply list_lookup_insert_ne. intros <-.
        apply Hl_notin. rewrite nodes_frozen_tree in Hx. apply elem_of_kid_nodes. eauto.
    + intros x Hx. rewrite nodes_Node, not_elem_of_cons in Hx. destruct Hx as [Hxl Hx].
      rewrite list_lookup_insert_ne by done. by apply Hframe1.
Qed.

(** ** [freeze] on a frozen tree: a TypeError as soon as there is a nested
    plain mapping *)









(** ** [unfreeze] copies a tree *)

Lemma unfreeze_S fuel object h :
  unfreeze (S fuel) object h =
  match Reflect_ownKeys object (h ++ [Obj Plain false []]) with
  | Ret keys h0 =>
      match for_each keys (unfreeze_key (unfreeze fuel) object (VObj (List.length h))) h0 with
      | Ret _ h1 => Ret (VObj (List.length h)) h1
      | Throw e h1 => Throw e h1
      | OutOfFuel => OutOfFuel
      end
  | Throw e h0 => Throw e h0
  | OutOfFuel => OutOfFuel
  end.
Proof. reflexivity. Qed.

Lemma unfreeze_key_eq rec object unfrozen key h :
  unfreeze_key rec object unfrozen key h =
  match (if isPlainObject h (get_prop h object key)
         then rec (get_prop h object key) h
         else Ret (get_prop h object key) h) with
  | Ret copy h' =>
      if String.eqb key "__proto__" then Ret tt h' else put true unfrozen key copy h'
  | Throw e h' => Throw e h'
  | OutOfFuel => OutOfFuel
  end.
Proof.
  unfold unfreeze_key, bind, reads.
  destruct (isPlainObject h (get_prop h object key)).
  - destruct (rec (get_prop h object key) h); try done. by destruct (String.eqb _ _).
  - unfold ret. by destruct (String.eqb _ _).
Qed.



Lemma extends_but_trans p h1 h2 h3 :
  extends_but p h1 h2 -> extends_but p h2 h3 -> extends_but p h1 h3.
Proof. intros H1 H2 x o Hne Hx. auto. Qed.

Lemma extends_extends_but p h h' : extends h h' -> extends_but p h h'.
Proof. intros H x o _. apply H. Qed.

Lemma extends_but_insert p h o : extends_but p h (<[p := o]> h).
Proof. intros x ox Hne Hx. by rewrite list_lookup_insert_ne. Qed.

Lemma extends_but_same_kinds p h h' o o' :
  extends_but p h h' -> h !! p = Some o -> h' !! p = Some o' -> o_kind o' = o_kind o ->
  same_kinds h h'.
Proof.
  intros H Hp Hp' Hk x ox Hx. destruct (decide (x = p)) as [->|Hne].
  - exists o'. split; [done|congruence].
  - exists ox. split; [by apply H|done].
Qed.

Lemma shape_nodes_lookup h t x : shape h t -> x ∈ nodes t -> is_Some (h !! x).
Proof.
  revert x. induction t as [v|l fz kids IH] using tree_ind'; intros x Ht Hx.
  - by apply elem_of_nil in Hx.
  - apply shape_Node in Ht as (Hl & _ & Hk). rewrite nodes_Node in Hx.
    apply elem_of_cons in Hx as [->|Hx]; [by eexists|].
    apply elem_of_kid_nodes in Hx as (kc & Hin & Hx).
    rewrite Forall_forall in IH, Hk. by apply (IH kc Hin x (Hk kc Hin)).
Qed.

Lemma shape_nodes_lt h t x : shape h t -> x ∈ nodes t -> x < List.length h.
Proof.
  intros Ht Hx. destruct (shape_nodes_lookup h t x Ht Hx) as [o Ho].
  by eapply lookup_lt_Some.
Qed.



(** ** [set] then [get] along a path of the heap *)



Lemma lookup_insert_put (h : heap) (l : loc) (o o' : object) (x : loc) :
  h !! l = Some o -> (<[l := o']> h) !! x = if decide (x = l) then Some o' else h !! x.
Proof.
  intros Hl. destruct (decide (x = l)) as [->|Hne].
  - apply list_lookup_insert_eq. by eapply lookup_lt_Some.
  - by apply list_lookup_insert_ne.
Qed.

(** On a mutable object, [assignValue] always ends with the property set. *)
Lemma assignValue_unfrozen strict h l o k v :
  h !! l = Some o -> o_frozen o = false ->
  assignValue strict (VObj l) k v h =
  Ret tt (<[l := Obj (o_kind o) false (pset (o_props o) k v)]> h).
Proof.
  intros Hl Hfz. unfold assignValue.
  destruct (hasOwn h (VObj l) k && lodash_eq (get_prop h (VObj l) k) v) eqn:E.
  - apply andb_true_iff in E as [Hown Heq].
    destruct (lodash_eq_spec (get_prop h (VObj l) k) v) as [Hv|]; [|done].
    unfold hasOwn, get_prop, own_prop in *. rewrite Hl in *.
    destruct (pget (o_props o) k) as [x|] eqn:P; [|done]. subst x.
    rewrite (pset_same _ _ _ P). f_equal. symmetry. apply list_insert_id.
    rewrite Hl. f_equal. destruct o; simpl in *. by subst.
  - unfold baseAssignValue, put. by rewrite Hl, Hfz.
Qed.


(** ** The container's methods, unfolded *)

Lemma on_heap_eq {A} (m : M heap A) w :
  on_heap m w =
  match m (w_heap w) with
  | Ret a h => Ret a (with_heap w h)
  | Throw e h => Throw e (with_heap w h)
  | OutOfFuel => OutOfFuel
  end.
Proof. reflexivity. Qed.

Lemma convertToModel_eq v w :
  convertToModel v w = Ret (fst (converted w v)) (with_heap w (snd (converted w v))).
Proof.
  unfold convertToModel, converted, bind, reads, with_heap.
  destruct w as [h a [f|] g]; reflexivity.
Qed.

Lemma Bag_set_eq strict k v w :
  Bag_set strict k v w =
  match lodash_set strict (attributes w) k (fst (converted w v)) (snd (converted w v)) with
  | Ret _ h => Ret this (with_heap w h)
  | Throw e h => Throw e (with_heap w h)
  | OutOfFuel => OutOfFuel
  end.
Proof.
  unfold Bag_set. unfold bind at 1. unfold reads at 1. unfold bind at 1.
  rewrite convertToModel_eq. unfold bind at 1. rewrite on_heap_eq. cbn [w_heap with_heap].
  destruct (lodash_set strict (attributes w) k (converted w v).1 (converted w v).2);
    reflexivity.
Qed.

Lemma Bag_get_eq k d w :
  Bag_get k d w = Ret (lodash_get (w_heap w) (attributes w) k (fallback d)) w.
Proof. reflexivity. Qed.

Lemma Bag_isGuarded_eq w :
  Bag_isGuarded w =
  Ret (match GuardedState w with Some b => VBool b | None => VUndefined end) w.
Proof. reflexivity. Qed.

Lemma Bag_put_eq strict source w :
  Bag_put strict source w =
  match lodash_extend strict (attributes w) source (w_heap w) with
  | Ret _ h => Ret this (with_heap w h)
  | Throw e h => Throw e (with_heap w h)
  | OutOfFuel => OutOfFuel
  end.
Proof.
  unfold Bag_put. unfold bind at 1. unfold reads at 1. unfold bind at 1.
  rewrite on_heap_eq.
  destruct (lodash_extend strict (attributes w) source (w_heap w)); reflexivity.
Qed.

Lemma Bag_forget_eq strict k w :
  Bag_forget strict k w =
  match lodash_unset strict (attributes w) k (w_heap w) with
  | Ret _ h => Ret this (with_heap w h)
  | Throw e h => Throw e (with_heap w h)
  | OutOfFuel => OutOfFuel
  end.
Proof.
  unfold Bag_forget. unfold bind at 1. unfold reads at 1. unfold bind at 1.
  rewrite on_heap_eq.
  destruct (lodash_unset strict (attributes w) k (w_heap w)); reflexivity.
Qed.

Lemma Bag_defaults_eq strict source w :
  Bag_defaults strict source w =
  match lodash_defaults strict (attributes w) source (w_heap w) with
  | Ret _ h => Ret this (with_heap w h)
  | Throw e h => Throw e (with_heap w h)
  | OutOfFuel => OutOfFuel
  end.
Proof.
  unfold Bag_defaults. unfold bind at 1. unfold reads at 1. unfold bind at 1.
  rewrite on_heap_eq.
  destruct (lodash_defaults strict (attributes w) source (w_heap w)); reflexivity.
Qed.

Lemma Bag_guard_eq fuel w :
  Bag_guard fuel w =
  match freeze fuel (attributes w) (w_heap w) with
  | Ret _ h => Ret this (World h (attributes w) (AttributeModel w) (Some true))
  | Throw e h => Throw e (with_heap w h)
  | OutOfFuel => OutOfFuel
  end.
Proof.
  unfold Bag_guard. unfold bind at 1. unfold reads at 1. unfold bind at 1.
  rewrite on_heap_eq.
  destruct (freeze fuel (attributes w) (w_heap w)); reflexivity.
Qed.

Lemma Bag_unguard_eq fuel w :
  Bag_unguard fuel w =
  match unfreeze fuel (attributes w) (w_heap w) with
  | Ret unfrozen h => Ret this (World h unfrozen (AttributeModel w) (Some false))
  | Throw e h => Throw e (with_heap w h)
  | OutOfFuel => OutOfFuel
  end.
Proof.
  unfold Bag_unguard. unfold bind at 1. unfold reads at 1. unfold bind at 1.
  rewrite on_heap_eq.
  destruct (unfreeze fuel (attributes w) (w_heap w)); reflexivity.
Qed.

Lemma Bag_mutate_eq strict fuel k v w :
  Bag_mutate strict fuel k v w =
  if match GuardedState w with Some b => b | None => false end
  then match Bag_unguard fuel w with
       | Ret _ w1 =>
           match Bag_set strict k v w1 with
           | Ret _ w2 =>
               match Bag_guard fuel w2 with
               | Ret _ w3 => Ret this w3
               | Throw e w3 => Throw e w3
               | OutOfFuel => OutOfFuel
               end
           | Throw e w2 => Throw e w2
           | OutOfFuel => OutOfFuel
           end
       | Throw e w1 => Throw e w1
       | OutOfFuel => OutOfFuel
       end
  else match Bag_set strict k v w with
       | Ret _ w2 => Ret this w2
       | Throw e w2 => Throw e w2
       | OutOfFuel => OutOfFuel
       end.
Proof.
  unfold Bag_mutate. unfold bind at 1. rewrite Bag_isGuarded_eq.
  destruct (GuardedState w) as [[|]|]; cbn [truthy].
  - unfold bind. destruct (Bag_unguard fuel w) as [[] w1| |]; [|done|done].
    destruct (Bag_set strict k v w1) as [[] w2| |]; [|done|done].
    by destruct (Bag_guard fuel w2) as [[] w3| |].
  - unfold bind, ret. by destruct (Bag_set strict k v w) as [[] w2| |].
  - unfold bind, ret. by destruct (Bag_set strict k v w) as [[] w2| |].
Qed.

(** ** The guarded flag is written by [guard] and [unguard] only *)

Lemma same_flag_refl w : same_flag w w.
Proof. done. Qed.

Lemma same_flag_trans w1 w2 w3 : same_flag w1 w2 -> same_flag w2 w3 -> same_flag w1 w3.
Proof. unfold same_flag. congruence. Qed.

Lemma on_heap_same_flag {A} (m : M heap A) : preserves same_flag (on_heap m).
Proof. intros w. rewrite on_heap_eq. by destruct (m (w_heap w)). Qed.

Lemma on_heap_terminates {A} (m : M heap A) : terminates m -> terminates (on_heap m).
Proof.
  intros Hm w. rewrite on_heap_eq. specialize (Hm (w_heap w)). by destruct (m (w_heap w)).
Qed.

Lemma Bag_set_same_flag strict k v : preserves same_flag (Bag_set strict k v).
Proof.
  intros w. rewrite Bag_set_eq.
  by destruct (lodash_set strict (attributes w) k (converted w v).1 (converted w v).2).
Qed.

Lemma Bag_set_terminates strict k v : terminates (Bag_set strict k v).
Proof.
  intros w. rewrite Bag_set_eq.
  pose proof (lodash_set_terminates strict (attributes w) k (converted w v).1 (converted w v).2).
  by destruct (lodash_set strict (attributes w) k (converted w v).1 (converted w v).2).
Qed.

Lemma lodash_each_Bag_set_same_flag strict attrs :
  preserves same_flag (lodash_each attrs (fun v k => Bag_set strict k v ;; ret tt)).
Proof.
  intros w. unfold lodash_each.
  destruct (arrayLike (w_heap w) attrs);
    apply preserves_for_each; try apply same_flag_refl; try apply same_flag_trans;
    intros x; (apply preserves_bind; [apply same_flag_trans | apply preserves_reads; apply same_flag_refl |]);
    intros v0; (apply preserves_bind; [apply same_flag_trans | apply Bag_set_same_flag |]);
    intros _; apply preserves_ret; apply same_flag_refl.
Qed.

Lemma lodash_each_Bag_set_terminates strict attrs :
  terminates (lodash_each attrs (fun v k => Bag_set strict k v ;; ret tt)).
Proof.
  intros w. unfold lodash_each.
  destruct (arrayLike (w_heap w) attrs);
    apply terminates_for_each; intros x;
    (apply terminates_bind; [apply terminates_reads|]); intros v0;
    (apply terminates_bind; [apply Bag_set_terminates|]); intros _; apply terminates_ret.
Qed.

Lemma Bag_reset_unguarded_eq strict fuel attrs w :
  Bag_reset strict fuel attrs false w =
  match lodash_each attrs (fun v k => Bag_set strict k v ;; ret tt)
          (World (w_heap w ++ [Obj Plain false []]) (VObj (List.length (w_heap w)))
                 (AttributeModel w) (GuardedState w)) with
  | Ret _ w' => Ret this w'
  | Throw e w' => Throw e w'
  | OutOfFuel => OutOfFuel
  end.
Proof.
  unfold Bag_reset. unfold bind at 1. rewrite on_heap_eq. unfold alloc.
  unfold bind at 1. unfold set_attributes, modify. unfold bind at 1.
  cbn [with_heap w_heap attributes AttributeModel GuardedState].
  match goal with |- context [lodash_each ?a ?f ?w0] => destruct (lodash_each a f w0) as [[] w'| |] end;
    reflexivity.
Qed.

(** * The properties of the specification *)

(** ** C10 *)

(** C10: a container constructed, or reset, with [guarded = false] on which
    neither [guard()] nor [unguard()] was ever called answers [undefined]
    to [isGuarded()], not [false]: the constructor creates no entry in
    [GuardedState], [reset] with [guarded = false] writes none, whether it
    returns or throws, and no operation other than [guard], [unguard] and a
    [reset] with [guarded = true] creates one. *)
Theorem C10_isGuarded_undefined_until_guarded strict fuel :
  (forall h attrs AM,
     match Bag_new strict fuel h attrs false AM with
     | Ret _ w | Throw _ w => Bag_isGuarded w = Ret VUndefined w
     | OutOfFuel => False
     end) /\
  (forall w attrs,
     GuardedState w = None ->
     match Bag_reset strict fuel attrs false w with
     | Ret _ w' | Throw _ w' => Bag_isGuarded w' = Ret VUndefined w'
     | OutOfFuel => False
     end) /\
  (forall op w w',
     GuardedState w = None ->
     match op with OGuard | OUnguard | OReset _ true => False | _ => True end ->
     run strict fuel op w = Some w' ->
     Bag_isGuarded w' = Ret VUndefined w').
Proof.
  assert (forall w attrs, GuardedState w = None ->
            match Bag_reset strict fuel attrs false w with
            | Ret _ w' | Throw _ w' => Bag_isGuarded w' = Ret VUndefined w'
            | OutOfFuel => False
            end) as Hreset.
  { intros w attrs Hg. rewrite Bag_reset_unguarded_eq.
    set (w0 := World _ _ _ _).
    pose proof (lodash_each_Bag_set_same_flag strict attrs w0) as Hflag.
    pose proof (lodash_each_Bag_set_terminates strict attrs w0) as Hterm.
    destruct (lodash_each attrs _ w0) as [[] w'|e w'|]; [| |done];
      rewrite Bag_isGuarded_eq; unfold same_flag in Hflag; cbn in Hflag;
      by rewrite Hflag, Hg. }
  assert (forall k v w w', GuardedState w = None ->
            final (Bag_set strict k v w) = Some w' ->
            Bag_isGuarded w' = Ret VUndefined w') as Hset.
  { intros k v w w' Hg Hrun. pose proof (Bag_set_same_flag strict k v w) as Hflag.
    destruct (Bag_set strict k v w) as [[] w1|e w1|]; [| |done];
      injection Hrun as <-; rewrite Bag_isGuarded_eq; unfold same_flag in Hflag;
      by rewrite Hflag, Hg. }
  split; [|split; [exact Hreset|]].
  - intros h attrs AM. by apply Hreset.
  - intros op w w' Hg Hop Hrun.
    destruct op as [k v|source|k|source| | |k v|attrs [|]]; try done; cbn [run] in Hrun.
    + by apply (Hset k v w).
    + rewrite Bag_put_eq in Hrun.
      destruct (lodash_extend strict (attributes w) source (w_heap w)) as [[] h|e h|];
        [| |done]; injection Hrun as <-; rewrite Bag_isGuarded_eq; cbn; by rewrite Hg.
    + rewrite Bag_forget_eq in Hrun.
      destruct (lodash_unset strict (attributes w) k (w_heap w)) as [[] h|e h|];
        [| |done]; injection Hrun as <-; rewrite Bag_isGuarded_eq; cbn; by rewrite Hg.
    + rewrite Bag_defaults_eq in Hrun.
      destruct (lodash_defaults strict (attributes w) source (w_heap w)) as [[] h|e h|];
        [| |done]; injection Hrun as <-; rewrite Bag_isGuarded_eq; cbn; by rewrite Hg.
    + rewrite Bag_mutate_eq, Hg in Hrun. apply (Hset k v w w' Hg).
      by destruct (Bag_set strict k v w) as [[] w1|e w1|].
    + specialize (Hreset w attrs Hg).
      destruct (Bag_reset strict fuel attrs false w) as [[] w1|e w1|]; [| |done];
        by injection Hrun as <-.
Qed.

Lemma C10_witness :
  match Bag_reset true 4 (VObj 1) false (World heap_a_b VUndefined None None) with
  | Ret _ w' | Throw _ w' => Bag_isGuarded w' = Ret VUndefined w'
  | OutOfFuel => False
  end.
Proof.
  exact (proj1 (proj2 (C10_isGuarded_undefined_until_guarded true 4))
               (World heap_a_b VUndefined None None) (VObj 1) eq_refl).
Defined.

(** ** C7 *)

(** C7, as the code has it: [get] with the empty key reads the top-level
    attribute named [""], and with an absent key the one named
    ["undefined"]; it returns that value, or the fallback when there is none
    (or it is [undefined]). *)
Theorem C7_get_empty_key_is_a_lookup w d :
  Bag_get (KStr "") d w =
    Ret (or_fallback (get_prop (w_heap w) (attributes w) "") d) w /\
  Bag_get KUndefined d w =
    Ret (or_fallback (get_prop (w_heap w) (attributes w) "undefined") d) w.
Proof.
  rewrite !Bag_get_eq. unfold lodash_get, or_fallback, castPath.
  cbn [has_char andb toKey baseGet baseGet_loop].
  destruct (attributes w) as [| | | | |l] eqn:E; cbn [nullish]; try done.
Qed.

(** C7, counterexample: on [new Bag({a: {b: 1}})], [get('')] is the
    fallback [null], not the attributes. *)
Lemma C7_counterexample :
  exists w, Bag_new true 4 heap_a_b (VObj 1) false None = Ret this w /\
            Bag_get (KStr "") VUndefined w = Ret VNull w /\
            Bag_get (KStr "") VUndefined w <> Ret (attributes w) w.
Proof. eexists. split; [vm_compute; reflexivity|]. split; [reflexivity|]. discriminate. Qed.

(** ** Writes on a mutable top-level mapping *)

Lemma get_prop_insert_eq (h : heap) (l : loc) (o o' : object) k :
  h !! l = Some o ->
  get_prop (<[l := o']> h) (VObj l) k =
  match pget (o_props o') k with Some x => x | None => VUndefined end.
Proof.
  intros Hl. unfold get_prop, own_prop. rewrite (lookup_insert_put h l o o' l Hl).
  by destruct (decide (l = l)).
Qed.

Lemma own_prop_insert_ne (h : heap) (l : loc) (o' : object) v k :
  v <> VObj l -> own_prop (<[l := o']> h) v k = own_prop h v k.
Proof.
  intros Hne. destruct v as [| | | | |x]; try done. unfold own_prop.
  rewrite list_lookup_insert_ne; [done|congruence].
Qed.

Lemma get_prop_insert_ne (h : heap) (l : loc) (o' : object) v k :
  v <> VObj l -> get_prop (<[l := o']> h) v k = get_prop h v k.
Proof. intros Hne. unfold get_prop. by rewrite own_prop_insert_ne. Qed.

(** Storing under [k] the value [source[k]]: every read of [source] stays
    what it was, also when [source] is the object written. *)
Lemma get_prop_put_source (h : heap) (l : loc) (o : object) source k k' :
  h !! l = Some o ->
  get_prop (<[l := Obj (o_kind o) false (pset (o_props o) k (get_prop h source k))]> h) source k'
  = get_prop h source k'.
Proof.
  intros Hl. destruct (decide (source = VObj l)) as [->|Hne];
    [|by apply get_prop_insert_ne].
  rewrite (get_prop_insert_eq h l o _ k' Hl). cbn [o_props].
  rewrite (get_prop_lookup h l o k' Hl).
  destruct (String.eqb_spec k k') as [<-|Hk]; [|by rewrite pget_pset_ne].
  rewrite pget_pset_eq. rewrite (get_prop_lookup h l o k Hl). done.
Qed.

Lemma bool_decide_elem_cons_ne (k k' : string) ks :
  k' <> k -> bool_decide (k' ∈ k :: ks) = bool_decide (k' ∈ ks).
Proof.
  intros Hne. apply bool_decide_ext. rewrite elem_of_cons.
  split; [intros [?|?]; [congruence|done] | intros ?; by right].
Qed.




Lemma put_unfrozen strict (h : heap) (l : loc) (o : object) k v :
  h !! l = Some o -> o_frozen o = false ->
  put strict (VObj l) k v h = Ret tt (<[l := Obj (o_kind o) false (pset (o_props o) k v)]> h).
Proof. intros Hl Hfz. unfold put. by rewrite Hl, Hfz. Qed.

Lemma defaults_fills_lookup h l o k :
  h !! l = Some o ->
  defaults_fills h (VObj l) k =
  match pget (o_props o) k with
  | Some x => lodash_eq x VUndefined
  | None => negb (String.eqb k "__proto__")
  end.
Proof.
  intros Hl. unfold defaults_fills, hasOwn, get_prop, own_prop. rewrite Hl.
  by destruct (pget (o_props o) k).
Qed.

Lemma lodash_defaults_loop strict l source : forall ks h o,
  h !! l = Some o -> o_frozen o = false ->
  exists h',
    for_each ks (fun k =>
      fill <- reads (fun h => defaults_fills h (VObj l) k) ;;
      if fill
      then srcValue <- reads (fun h => get_prop h source k) ;;
           put strict (VObj l) k srcValue
      else ret tt) h = Ret tt h' /\
    List.length h' = List.length h /\
    (forall x, x <> l -> h' !! x = h !! x) /\
    (forall k, get_prop h' (VObj l) k =
               if bool_decide (k ∈ ks) && defaults_fills h (VObj l) k
               then get_prop h source k else get_prop h (VObj l) k) /\
    (forall k, get_prop h' source k = get_prop h source k) /\
    (forall k, hasOwn h' (VObj l) k =
               hasOwn h (VObj l) k || (bool_decide (k ∈ ks) && defaults_fills h (VObj l) k)).
Proof.
  induction ks as [|k ks IH]; intros h o Hl Hfz.
  - exists h. split; [done|]. split; [done|]. split; [done|].
    split; [|split; [done|]]; intros k;
      (rewrite bool_decide_eq_false_2; [|apply not_elem_of_nil]); [done|].
    by rewrite orb_false_r.
  - rewrite for_each_cons. unfold bind at 1. unfold reads at 1.
    destruct (defaults_fills h (VObj l) k) eqn:Hfill.
    + unfold bind at 1. unfold reads at 1.
      rewrite (put_unfrozen strict h l o k _ Hl Hfz).
      set (o1 := Obj (o_kind o) false (pset (o_props o) k (get_prop h source k))).
      set (h1 := <[l := o1]> h).
      assert (h1 !! l = Some o1) as Hl1.
      { unfold h1. apply list_lookup_insert_eq. by eapply lookup_lt_Some. }
      assert (forall k', get_prop h1 source k' = get_prop h source k') as Hsrc.
      { intros k'. unfold h1, o1. by apply get_prop_put_source. }
      destruct (IH h1 o1 Hl1 eq_refl) as (h' & Hloop & Hlen & Hframe & Hget & Hsrc' & Hown').
      assert (forall k', k' <> k ->
                defaults_fills h1 (VObj l) k' = defaults_fills h (VObj l) k') as Hfills.
      { intros k' Hne.
        rewrite (defaults_fills_lookup h1 l o1 k' Hl1), (defaults_fills_lookup h l o k' Hl).
        unfold o1. cbn [o_props]. by rewrite pget_pset_ne. }
      exists h'. split; [done|]. split; [by rewrite Hlen; apply length_insert|].
      split; [intros x Hx; rewrite Hframe by done; by apply list_lookup_insert_ne|].
      split; [|split].
      * intros k'. rewrite Hget, Hsrc.
        destruct (decide (k' = k)) as [->|Hne].
        -- rewrite (bool_decide_eq_true_2 (k ∈ k :: ks)) by (apply elem_of_cons; by left).
           rewrite Hfill. cbn [andb].
           assert (get_prop h1 (VObj l) k = get_prop h source k) as ->.
           { unfold h1. rewrite (get_prop_insert_eq h l o o1 k Hl). unfold o1. cbn [o_props].
             by rewrite pget_pset_eq. }
           by destruct (_ && _).
        -- assert (bool_decide (k' ∈ k :: ks) = bool_decide (k' ∈ ks)) as ->
             by (by apply bool_decide_elem_cons_ne).
           rewrite (Hfills k' Hne).
           assert (get_prop h1 (VObj l) k' = get_prop h (VObj l) k') as ->; [|done].
           unfold h1. rewrite (get_prop_insert_eq h l o o1 k' Hl). unfold o1. cbn [o_props].
           rewrite pget_pset_ne by done. by rewrite (get_prop_lookup h l o k' Hl).
      * intros k'. by rewrite Hsrc', Hsrc.
      * intros k'. rewrite Hown'. unfold hasOwn at 1 2, own_prop. rewrite Hl1, Hl.
        unfold o1. cbn [o_props]. destruct (decide (k' = k)) as [->|Hne].
        -- rewrite pget_pset_eq.
           rewrite (bool_decide_eq_true_2 (k ∈ k :: ks)) by (apply elem_of_cons; by left).
           rewrite Hfill. cbn [orb andb]. by rewrite orb_true_r.
        -- rewrite pget_pset_ne by done. rewrite (Hfills k' Hne).
           by rewrite (bool_decide_elem_cons_ne k k' ks Hne).
    + unfold ret at 1.
      destruct (IH h o Hl Hfz) as (h' & Hloop & Hlen & Hframe & Hget & Hsrc' & Hown').
      exists h'. split; [done|]. split; [done|]. split; [done|]. split; [|split; [done|]].
      * intros k'. rewrite Hget. destruct (decide (k' = k)) as [->|Hne].
        -- by rewrite Hfill, !andb_false_r.
        -- by rewrite bool_decide_elem_cons_ne.
      * intros k'. rewrite Hown'. destruct (decide (k' = k)) as [->|Hne].
        -- by rewrite Hfill, !andb_false_r.
        -- by rewrite bool_decide_elem_cons_ne.
Qed.

(** ** C9 *)




(** ** C6 *)








Lemma converted_extends w v : extends (w_heap w) (snd (converted w v)).
Proof.
  unfold converted. destruct (AttributeModel w); cbn [snd];
    [apply extends_app | apply extends_refl].
Qed.














(** ** C8 *)

(** *** [reset] stores what [set] stores *)

Lemma Bag_set_top strict w a o k v :
  attributes w = VObj a -> w_heap w !! a = Some o -> o_frozen o = false ->
  reIsDeepProp k = false -> unsafe_key k = false ->
  Bag_set strict (KStr k) v w =
  Ret this (with_heap w (<[a := Obj (o_kind o) false
                                 (pset (o_props o) k (fst (converted w v)))]>
                           (snd (converted w v)))).
Proof.
  intros Ha Ho Hfz Hdeep Hsafe. rewrite Bag_set_eq, Ha.
  pose proof (converted_extends w v _ _ Ho) as Ho1.
  unfold lodash_set. cbn [isObject]. rewrite (castPath_key _ k _ Hdeep).
  cbn [baseSet_loop nullish]. rewrite Hsafe.
  by rewrite (assignValue_unfrozen strict _ a o k _ Ho1 Hfz).
Qed.





(** The scenario of the specification: with [AttributeModel = Wrapper],
    [new Bag({y: 5})] wraps (through [reset] and [set]), [set('x', 5)] then
    [get('x')] is a wrapper [{raw: 5}], and [put({y: 5})] then [get('y')]
    is [5]. *)
Example wrapper_scenario :
  exists w0 w1 w2 p q,
    Bag_new true 4 heap_y5 (VObj 1) false (Some Wrapper) = Ret this w0 /\
    Bag_get (KStr "y") VUndefined w0 = Ret (VObj q) w0 /\
    w_heap w0 !! q = Some (Obj Instance false [("raw", VNum 5)]) /\
    Bag_set true (KStr "x") (VNum 5) w0 = Ret this w1 /\
    Bag_get (KStr "x") VUndefined w1 = Ret (VObj p) w1 /\
    w_heap w1 !! p = Some (Obj Instance false [("raw", VNum 5)]) /\
    Bag_put true (VObj 1) w1 = Ret this w2 /\
    Bag_get (KStr "y") VUndefined w2 = Ret (VNum 5) w2.
Proof.
  do 5 eexists. split; [vm_compute; reflexivity|].
  split; [vm_compute; reflexivity|]. split; [reflexivity|].
  split; [vm_compute; reflexivity|].
  split; [vm_compute; reflexivity|]. split; [reflexivity|].
  split; [vm_compute; reflexivity|]. reflexivity.
Qed.

(** ** C4 *)


Lemma shape_tree_a_b : shape heap_a_b tree_a_b.
Proof.
  apply shape_Node. split; [reflexivity|]. split; [apply NoDup_singleton|].
  apply Forall_cons. split; [|constructor]. cbn [snd].
  apply shape_Node. split; [reflexivity|]. split; [apply NoDup_singleton|].
  apply Forall_cons. split; [exact I | constructor].
Qed.

Lemma NoDup_tree_a_b : NoDup (nodes tree_a_b).
Proof.
  cbn. apply NoDup_cons. split; [|apply NoDup_singleton].
  rewrite list_elem_of_singleton. lia.
Qed.

Lemma flagged_tree_a_b : flagged false tree_a_b.
Proof. cbn. tauto. Qed.

Lemma proto_free_tree_a_b : proto_free tree_a_b.
Proof.
  cbn. repeat split; rewrite ?list_elem_of_singleton; try discriminate; apply not_elem_of_nil.
Qed.



(** ** C5 *)

(** *** [freeze] where mappings are shared or frozen already *)


















(** C5, counterexamples. On [{a: s, b: s}] with [s = {c: {}}], [freeze]
    raises a TypeError: it meets [s] a second time, frozen, and assigns to
    its property [c]. On a frozen [{a: {}}], [freeze] raises a TypeError at
    once. On the mapping with the own key [__proto__],
    [unfreeze(freeze(m))] returns a mapping with no key. On
    [a = {}; a.self = a], [freeze] never returns. *)
Lemma C5_counterexample :
  (exists h1, freeze 4 (VObj 2) heap_shared_inner = Throw TypeError h1) /\
  (exists h1, freeze 4 (VObj 1) heap_frozen_value = Throw TypeError h1) /\
  (exists h1 h2,
     freeze 4 (VObj 0) heap_own_proto = Ret (VObj 0) h1 /\
     ownKeys h1 (VObj 0) = ["__proto__"] /\
     unfreeze 4 (VObj 0) h1 = Ret (VObj 1) h2 /\
     ownKeys h2 (VObj 1) = []) /\
  (forall fuel, freeze fuel (VObj 0) heap_self = OutOfFuel).
Proof.
  split; [|split; [|split]].
  - eexists. vm_compute. reflexivity.
  - eexists. vm_compute. reflexivity.
  - do 2 eexists. split; [vm_compute; reflexivity|]. split; [reflexivity|].
    split; [vm_compute; reflexivity|]. reflexivity.
  - induction fuel as [|fuel IH]; [reflexivity|].
    rewrite freeze_S. cbn [Reflect_ownKeys].
    rewrite (ownKeys_lookup heap_self 0 (Obj Plain false [("self", VObj 0)]) eq_refl).
    cbn [o_props map fst]. rewrite for_each_cons, freeze_key_eq.
    change (get_prop heap_self (VObj 0) "self") with (VObj 0).
    change (isPlainObject heap_self (VObj 0)) with true. cbv iota. by rewrite IH.
Qed.

(** ** [set] keeps a tree of mutable plain mappings a tree *)


Lemma kget_Some_elem kids k c : kget kids k = Some c -> (k, c) ∈ kids.
Proof.
  induction kids as [|[k' c'] kids IH]; [done|]. cbn [kget].
  destruct (String.eqb_spec k' k) as [->|Hne].
  - intros [= ->]. apply elem_of_cons. by left.
  - intros H. apply elem_of_cons. right. by apply IH.
Qed.















(** ** C3 *)







Lemma shape_extends h h' t : extends h h' -> shape h t -> shape h' t.
Proof.
  intros Hext Hs. apply (shape_preserved h); [by apply extends_same_kinds | done|].
  intros x Hx. destruct (shape_nodes_lookup h t x Hs Hx) as [o Ho].
  rewrite Ho. by apply Hext.
Qed.

Lemma frozen_tree_closed h t :
  shape h t -> flagged true t -> frozen_closed h (nodes t).
Proof.
  induction t as [v|l fz kids IH] using tree_ind'; intros Hs Hfl x Hx;
    [by apply elem_of_nil in Hx|].
  apply shape_Node in Hs as (Hl & Hkeys & Hkids). apply flagged_Node in Hfl as (-> & Hflk).
  rewrite nodes_Node in *. apply elem_of_cons in Hx as [->|Hx].
  - eexists. split; [exact Hl|]. split; [done|]. cbn [o_props]. intros k c Hp.
    rewrite pget_kid_props_kget in Hp. destruct (kget kids k) as [child|] eqn:Hkg; [|done].
    apply kget_Some_elem in Hkg. injection Hp as Hp.
    rewrite Forall_forall in Hkids. pose proof (Hkids _ Hkg) as Hc. cbn [snd] in Hc.
    destruct child as [vc|lc fzc kidsc]; cbn [root] in Hp.
    + subst vc. cbn [shape] in Hc. split; [by destruct Hc as (o & -> & _)|].
      intros Hplain. apply leaf_ok_not_plain in Hc. congruence.
    + injection Hp as ->. apply shape_Node in Hc as (Hlc & _).
      split; [by rewrite Hlc|]. intros _.
      apply elem_of_cons. right. apply elem_of_kid_nodes.
      exists (k, Node c fzc kidsc). split; [done|].
      cbn [snd]. rewrite nodes_Node. apply elem_of_cons. by left.
  - apply elem_of_kid_nodes in Hx as (kc & Hin & Hx).
    rewrite Forall_forall in IH, Hkids, Hflk.
    destruct (IH kc Hin (Hkids kc Hin) (Hflk kc Hin) x Hx) as (o & Ho & Hfz & Hcl).
    exists o. split; [done|]. split; [done|]. intros k c Hp.
    destruct (Hcl k c Hp) as [Hex Hin']. split; [done|]. intros Hplain.
    apply elem_of_cons. right. apply elem_of_kid_nodes. exists kc. split; [done|].
    by apply Hin'.
Qed.





Lemma shape_tree_guarded_a_b : shape (w_heap world_guarded_a_b) tree_guarded_a_b.
Proof.
  apply shape_Node. split; [reflexivity|]. split; [apply NoDup_singleton|].
  apply Forall_cons. split; [|constructor]. cbn [snd].
  apply shape_Node. split; [reflexivity|]. split; [apply NoDup_singleton|].
  apply Forall_cons. split; [exact I | constructor].
Qed.




(** ** C1 *)

Lemma same_bag_refl (R : heap -> heap -> Prop) w : R (w_heap w) (w_heap w) -> same_bag R w w.
Proof. by intros H. Qed.


Lemma same_bag_trans (R : heap -> heap -> Prop) w1 w2 w3 :
  (forall h1 h2 h3, R h1 h2 -> R h2 h3 -> R h1 h3) ->
  same_bag R w1 w2 -> same_bag R w2 w3 -> same_bag R w1 w3.
Proof.
  intros HR (H1 & A1 & M1 & G1) (H2 & A2 & M2 & G2).
  split; [by eapply HR|]. split; [congruence|]. split; congruence.
Qed.


Lemma keeps_frozen_isPlainObject h h' v :
  keeps_frozen h h' -> isPlainObject h v = true -> isPlainObject h' v = true.
Proof.
  intros Hk. destruct v as [| | | | |c]; try done. unfold isPlainObject.
  destruct (h !! c) as [o|] eqn:E; [|done].
  destruct (Hk c o E) as (o' & -> & -> & _). done.
Qed.

Lemma frozen_closed_keeps h h' S :
  keeps_frozen h h' -> frozen_closed h S ->
  frozen_closed h' S /\ forall x, x ∈ S -> h' !! x = h !! x.
Proof.
  intros Hk Hc.
  assert (forall x, x ∈ S -> h' !! x = h !! x) as Hsame.
  { intros x Hx. destruct (Hc x Hx) as (o & Ho & Hfz & _).
    destruct (Hk x o Ho) as (o' & Ho' & _ & Heq). rewrite Ho', Ho. f_equal. by apply Heq. }
  split; [|done]. intros x Hx. destruct (Hc x Hx) as (o & Ho & Hfz & Hkids).
  exists o. split; [by rewrite Hsame|]. split; [done|].
  intros k c Hp. destruct (Hkids k c Hp) as [[oc Hoc] Hin].
  destruct (Hk c oc Hoc) as (oc' & Hoc' & Hkind & _).
  split; [by rewrite Hoc'|]. intros Hplain. apply Hin.
  unfold isPlainObject in *. rewrite Hoc' in Hplain. rewrite Hoc. by rewrite <- Hkind.
Qed.






(** *** Sloppy-mode lodash never throws on an object *)

Lemma returns_ret {S A} (a : A) : returns (@ret S A a).
Proof. intros s. by exists a, s. Qed.


Lemma returns_bind {S A B} (m : M S A) (k : A -> M S B) :
  returns m -> (forall a, returns (k a)) -> returns (bind m k).
Proof.
  intros Hm Hk s. unfold bind. destruct (Hm s) as (a & s' & ->). apply Hk.
Qed.

Lemma returns_for_each {S A} (xs : list A) (body : A -> M S unit) :
  (forall x, returns (body x)) -> returns (for_each xs body).
Proof.
  intros Hb. induction xs as [|x xs IH]; cbn [for_each].
  - apply returns_ret.
  - apply returns_bind; [apply Hb | intros _; exact IH].
Qed.












(** *** Strict-mode lodash on a frozen top-level mapping *)





(** *** [reset] installs a new mutable mapping *)





Lemma frozen_closed_guarded_a_b : frozen_closed (w_heap world_guarded_a_b) [2; 0].
Proof.
  apply (frozen_tree_closed (w_heap world_guarded_a_b) tree_guarded_a_b).
  - exact shape_tree_guarded_a_b.
  - cbn. tauto.
Qed.



(** The scenario of the specification, with a strict-mode lodash. *)
Example guarded_scenario :
  exists w0 w1 w2 w3,
    Bag_new true 4 heap_a_b (VObj 1) false None = Ret this w0 /\
    Bag_set true (KStr "a.c") (VNum 2) w0 = Ret this w1 /\
    Bag_guard 4 w1 = Ret this w2 /\
    Bag_set true (KStr "a.b") (VNum 99) w2 = Throw TypeError w2 /\
    Bag_get (KStr "a.b") VUndefined w2 = Ret (VNum 1) w2 /\
    Bag_mutate true 4 (KStr "a.b") (VNum 99) w2 = Ret this w3 /\
    Bag_get (KStr "a.b") VUndefined w3 = Ret (VNum 99) w3 /\
    Bag_isGuarded w3 = Ret (VBool true) w3.
Proof.
  do 4 eexists. split; [vm_compute; reflexivity|].
  split; [vm_compute; reflexivity|]. split; [vm_compute; reflexivity|].
  split; [vm_compute; reflexivity|]. split; [vm_compute; reflexivity|].
  split; [vm_compute; reflexivity|]. split; vm_compute; reflexivity.
Qed.

(** ** C2 *)

(** *** Well-formed heaps *)

Lemma valid_value_mono h h' v :
  List.length h <= List.length h' -> valid_value h v -> valid_value h' v.
Proof. destruct v; cbn; try done. lia. Qed.

Lemma valid_props_mono h h' ps :
  List.length h <= List.length h' -> valid_props h ps -> valid_props h' ps.
Proof.
  intros Hle Hps. eapply Forall_impl; [exact Hps|].
  intros kv. by apply valid_value_mono.
Qed.

Lemma valid_props_pset h ps k v :
  valid_props h ps -> valid_value h v -> valid_props h (pset ps k v).
Proof.
  intros Hps Hv. induction ps as [|[k' v'] ps IH]; cbn [pset].
  - by apply Forall_cons.
  - apply Forall_cons in Hps as [Hv' Hps]. destruct (String.eqb k' k).
    + by apply Forall_cons.
    + apply Forall_cons. split; [done | by apply IH].
Qed.

Lemma valid_props_pdel h ps k : valid_props h ps -> valid_props h (pdel ps k).
Proof.
  intros Hps. induction ps as [|[k' v'] ps IH]; cbn [pdel]; [done|].
  apply Forall_cons in Hps as [Hv' Hps]. destruct (String.eqb k' k).
  - by apply IH.
  - apply Forall_cons. split; [done | by apply IH].
Qed.

Lemma valid_props_pget h ps k v :
  valid_props h ps -> pget ps k = Some v -> valid_value h v.
Proof.
  intros Hps. induction ps as [|[k' v'] ps IH]; cbn [pget]; [done|].
  apply Forall_cons in Hps as [Hv' Hps]. destruct (String.eqb k' k).
  - by intros [= <-].
  - by apply IH.
Qed.

Lemma valid_props_instance h fields :
  valid_props h fields -> valid_props h (instance_props fields).
Proof.
  unfold instance_props. assert (valid_props h []) as Hnil by constructor.
  revert Hnil. generalize (@nil (string * value)) as acc.
  induction fields as [|[k v] fields IH]; intros acc Hacc Hf; cbn [fold_left]; [done|].
  apply Forall_cons in Hf as [Hv Hf]. apply IH; [|done]. by apply valid_props_pset.
Qed.

Lemma valid_refs_insert h l kd fz ps :
  valid_refs h -> valid_props h ps -> valid_refs (<[l := Obj kd fz ps]> h).
Proof.
  intros Hh Hps x o Hx.
  apply (valid_props_mono h); [by rewrite length_insert|].
  destruct (decide (x = l)) as [->|Hne].
  - assert (l < List.length h) as Hlt.
    { apply lookup_lt_Some in Hx. by rewrite length_insert in Hx. }
    rewrite list_lookup_insert_eq in Hx by done. by injection Hx as <-.
  - rewrite list_lookup_insert_ne in Hx by done. by apply (Hh x).
Qed.

Lemma valid_refs_app h o :
  valid_refs h -> valid_props h (o_props o) -> valid_refs (h ++ [o]).
Proof.
  intros Hh Ho x o' Hx.
  apply (valid_props_mono h); [rewrite length_app; lia|].
  apply lookup_app_Some in Hx as [Hx|[_ Hx]]; [by apply (Hh x)|].
  destruct (x - List.length h) as [|n]; [|done]. cbn in Hx. by injection Hx as <-.
Qed.

Lemma get_prop_valid h v k : valid_refs h -> valid_value h (get_prop h v k).
Proof.
  intros Hh. unfold get_prop, own_prop. destruct v; try done.
  - unfold string_prop. destruct (String.eqb k "length"); [done|].
    destruct (index_of k) as [n|]; [|done]. by destruct (char_at s n).
  - destruct (h !! l) as [o|] eqn:E; [|done].
    destruct (pget (o_props o) k) as [x|] eqn:Ep; [|done].
    by apply (valid_props_pget h (o_props o) k x (Hh l o E)).
Qed.

Lemma keeps_valid_refl v h : keeps_valid v h h.
Proof. by split. Qed.

Lemma keeps_valid_trans v h1 h2 h3 :
  keeps_valid v h1 h2 -> keeps_valid v h2 h3 -> keeps_valid v h1 h3.
Proof.
  intros [Hl1 Hv1] [Hl2 Hv2]. split; [lia|]. intros Hh Hv.
  apply Hv2; [by apply Hv1|]. by apply (valid_value_mono h1).
Qed.

Lemma put_keeps_valid strict target k v : preserves (keeps_valid v) (put strict target k v).
Proof.
  intros h. unfold put.
  destruct target; try (destruct strict); try apply keeps_valid_refl.
  all: destruct (h !! l) as [o|] eqn:E; try apply keeps_valid_refl.
  all: destruct (o_frozen o); try apply keeps_valid_refl.
  all: split; [by rewrite length_insert|]; intros Hh Hv;
    apply valid_refs_insert; [done|]; apply valid_props_pset; [by apply (Hh l)|done].
Qed.

Lemma delete_prop_keeps_valid strict target k v :
  preserves (keeps_valid v) (delete_prop strict target k).
Proof.
  intros h. unfold delete_prop.
  destruct target; try apply keeps_valid_refl.
  - destruct (string_prop s k); [destruct strict|]; apply keeps_valid_refl.
  - destruct (h !! l) as [o|] eqn:E; [|apply keeps_valid_refl].
    destruct (pget (o_props o) k); [|apply keeps_valid_refl].
    destruct (o_frozen o); [destruct strict; apply keeps_valid_refl|].
    split; [by rewrite length_insert|]. intros Hh Hv.
    apply valid_refs_insert; [done|]. apply valid_props_pdel. by apply (Hh l).
Qed.

Lemma assignValue_keeps_valid strict object k v :
  preserves (keeps_valid v) (assignValue strict object k v).
Proof.
  intros h. unfold assignValue. destruct (_ && _); [apply keeps_valid_refl|].
  apply put_keeps_valid.
Qed.

Lemma keeps_valid_weaken v u h h' :
  (valid_refs h -> valid_value h v) -> keeps_valid v h h' -> keeps_valid u h h'.
Proof. intros Hv [Hl Hk]. split; [done|]. intros Hh _. apply Hk; [done | by apply Hv]. Qed.

(** An assignment of a value read from the heap. *)
Lemma read_assign_keeps_valid u (f : heap -> value) (m : value -> M heap unit) :
  (forall h, valid_refs h -> valid_value h (f h)) ->
  (forall x, preserves (keeps_valid x) (m x)) ->
  preserves (keeps_valid u) (x <- reads f ;; m x).
Proof.
  intros Hf Hm h. unfold bind, reads. pose proof (Hm (f h) h) as Ha.
  destruct (m (f h) h) as [[] h'|e h'|]; [| |done];
    (eapply keeps_valid_weaken; [|exact Ha]; apply Hf).
Qed.

Lemma baseSet_loop_keeps_valid strict v : forall path nested,
  preserves (keeps_valid v) (baseSet_loop strict path v nested).
Proof.
  induction path as [|k rest IH]; intros nested h; cbn [baseSet_loop].
  - apply keeps_valid_refl.
  - destruct (nullish nested); [apply keeps_valid_refl|].
    destruct (unsafe_key k); [apply keeps_valid_refl|].
    destruct rest as [|next rest']; [apply assignValue_keeps_valid|].
    unfold bind at 1. unfold reads at 1. set (objValue := get_prop h nested k).
    unfold bind at 1.
    assert (exists nv h1,
      (if isObject objValue then ret objValue
       else alloc (Obj (if isIndex next then Array else Plain) false [])) h = Ret nv h1 /\
      keeps_valid v h h1 /\ (valid_refs h -> valid_value h1 nv)) as (nv & h1 & -> & Hk1 & Hnv).
    { destruct (isObject objValue).
      - exists objValue, h. split; [done|]. split; [apply keeps_valid_refl|].
        intros Hh. by apply get_prop_valid.
      - eexists _, _. split; [reflexivity|]. split.
        + split; [rewrite length_app; lia|]. intros Hh _.
          apply valid_refs_app; [done | constructor].
        + intros _. cbn. rewrite length_app. cbn. lia. }
    unfold bind at 1.
    pose proof (assignValue_keeps_valid strict nested k nv h1) as Ha.
    assert (forall h2, keeps_valid nv h1 h2 -> keeps_valid v h h2) as Hcomb.
    { intros h2 [Hl2 Hv2]. destruct Hk1 as [Hl1 Hv1]. split; [lia|].
      intros Hh Hv. apply Hv2; [by apply Hv1 | by apply Hnv]. }
    destruct (assignValue strict nested k nv h1) as [[] h2|e h2|]; [|by apply Hcomb|done].
    unfold bind at 1. unfold reads at 1.
    specialize (IH (get_prop h2 nested k) h2).
    destruct (baseSet_loop strict (next :: rest') v (get_prop h2 nested k) h2);
      try done; (eapply keeps_valid_trans; [by apply Hcomb | exact IH]).
Qed.

Lemma lodash_set_keeps_valid strict object k v :
  preserves (keeps_valid v) (lodash_set strict object k v).
Proof.
  intros h. unfold lodash_set. destruct (isObject object); [|apply keeps_valid_refl].
  apply baseSet_loop_keeps_valid.
Qed.

Lemma lodash_unset_keeps_valid strict object k v :
  preserves (keeps_valid v) (lodash_unset strict object k).
Proof.
  intros h. unfold lodash_unset. destruct (nullish object); [apply keeps_valid_refl|].
  match goal with |- context [nullish ?p] => destruct (nullish p) end;
    [apply keeps_valid_refl | apply delete_prop_keeps_valid].
Qed.

Lemma lodash_extend_keeps_valid strict object source v :
  preserves (keeps_valid v) (lodash_extend strict object source).
Proof.
  intros h. unfold lodash_extend. destruct (truthy source); [|apply keeps_valid_refl].
  apply preserves_for_each; [apply keeps_valid_refl | apply keeps_valid_trans|].
  intros k. apply read_assign_keeps_valid.
  - intros h' Hh. by apply get_prop_valid.
  - intros x. apply assignValue_keeps_valid.
Qed.

Lemma lodash_defaults_keeps_valid strict object source v :
  preserves (keeps_valid v) (lodash_defaults strict object source).
Proof.
  intros h. unfold lodash_defaults.
  apply preserves_for_each; [apply keeps_valid_refl | apply keeps_valid_trans|].
  intros k h'. unfold bind at 1. unfold reads at 1.
  destruct (defaults_fills h' object k); [|apply keeps_valid_refl].
  apply read_assign_keeps_valid.
  - intros h'' Hh. by apply get_prop_valid.
  - intros x. apply put_keeps_valid.
Qed.

Lemma freezes_only_keeps_valid v h h' : freezes_only h h' -> keeps_valid v h h'.
Proof.
  intros [Hlen Hfo]. split; [lia|]. intros Hh _ l o' Hl.
  apply (valid_props_mono h); [lia|].
  assert (l < List.length h) as Hlt by (apply lookup_lt_Some in Hl; lia).
  apply lookup_lt_is_Some in Hlt as [o Ho].
  destruct (Hfo l o Ho) as (fz & Ho' & _). rewrite Ho' in Hl. injection Hl as <-.
  cbn [o_props]. by apply (Hh l).
Qed.

Lemma unfreeze_keeps_valid fuel : forall object h,
  match unfreeze fuel object h with
  | Ret r h' => keeps_valid VUndefined h h' /\ valid_value h' r
  | Throw _ h' => keeps_valid VUndefined h h'
  | OutOfFuel => True
  end.
Proof.
  induction fuel as [|fuel IH]; intros object h; [done|].
  rewrite unfreeze_S. set (h0 := h ++ [Obj Plain false []]).
  assert (keeps_valid VUndefined h h0) as Hk0.
  { split; [unfold h0; rewrite length_app; lia|]. intros Hh _.
    apply valid_refs_app; [done | constructor]. }
  assert (List.length h < List.length h0) as Hlen0
    by (unfold h0; rewrite length_app; cbn; lia).
  destruct object; cbn [Reflect_ownKeys]; try done.
  assert (forall key, preserves (keeps_valid VUndefined)
            (unfreeze_key (unfreeze fuel) (VObj l) (VObj (List.length h)) key)) as Hbody.
  { intros key s. rewrite unfreeze_key_eq.
    assert (match (if isPlainObject s (get_prop s (VObj l) key)
                   then unfreeze fuel (get_prop s (VObj l) key) s
                   else Ret (get_prop s (VObj l) key) s) with
            | Ret copy s' => keeps_valid VUndefined s s' /\
                             (valid_refs s -> valid_value s' copy)
            | Throw _ s' => keeps_valid VUndefined s s'
            | OutOfFuel => True
            end) as Hcopy.
    { destruct (isPlainObject s (get_prop s (VObj l) key)).
      - pose proof (IH (get_prop s (VObj l) key) s) as H.
        destruct (unfreeze fuel (get_prop s (VObj l) key) s) as [r s'|e s'|]; try done.
        by destruct H.
      - split; [apply keeps_valid_refl|]. intros Hs. by apply get_prop_valid. }
    destruct (if isPlainObject s (get_prop s (VObj l) key) then _ else _)
      as [copy s'|e s'|]; [|done|done].
    destruct Hcopy as [[Hl1 Hv1] Hcopy].
    destruct (String.eqb key "__proto__"); [by split|].
    pose proof (put_keeps_valid true (VObj (List.length h)) key copy s') as Hp.
    destruct (put true (VObj (List.length h)) key copy s') as [[] s''|e s''|]; [| |done];
      destruct Hp as [Hl2 Hv2]; (split; [lia|]); intros Hs _;
      (apply Hv2; [by apply Hv1 | by apply Hcopy]). }
  pose proof (preserves_for_each (keeps_valid VUndefined) (keeps_valid_refl _)
                (keeps_valid_trans _) (ownKeys h0 (VObj l)) _ Hbody h0) as Hloop.
  destruct (for_each _ _ h0) as [[] h1|e h1|]; [| |done].
  - split; [by eapply keeps_valid_trans|]. destruct Hloop as [Hl1 _]. cbn. lia.
  - by eapply keeps_valid_trans.
Qed.

Lemma freeze_keeps_valid fuel object v h :
  match freeze fuel object h with
  | Ret _ h' | Throw _ h' => keeps_valid v h h'
  | OutOfFuel => True
  end.
Proof.
  pose proof (freeze_freezes_only fuel object h) as H.
  destruct (freeze fuel object h) as [r h'|e h'|]; [| |done].
  - destruct H as [_ H]. by apply freezes_only_keeps_valid.
  - by apply freezes_only_keeps_valid.
Qed.

(** *** [guard] establishes the invariant *)

Lemma freezes_only_keeps_frozen h h' : freezes_only h h' -> keeps_frozen h h'.
Proof.
  intros [_ Hfo] l o Ho. destruct (Hfo l o Ho) as (fz & Ho' & Hfz).
  eexists. split; [exact Ho'|]. split; [done|].
  intros Hf. rewrite (Hfz Hf), <- Hf. by destruct o.
Qed.

Lemma frozen_closed_nil h : frozen_closed h [].
Proof. intros l Hl. by apply elem_of_nil in Hl. Qed.

Lemma frozen_closed_app h S1 S2 :
  frozen_closed h S1 -> frozen_closed h S2 -> frozen_closed h (S1 ++ S2).
Proof.
  intros H1 H2 l Hl. apply elem_of_app in Hl as [Hl|Hl].
  - destruct (H1 l Hl) as (o & Ho & Hfz & Hkids). exists o. split; [done|]. split; [done|].
    intros k c Hk. destruct (Hkids k c Hk) as [Hc Hp]. split; [done|].
    intros P. apply elem_of_app. left. by apply Hp.
  - destruct (H2 l Hl) as (o & Ho & Hfz & Hkids). exists o. split; [done|]. split; [done|].
    intros k c Hk. destruct (Hkids k c Hk) as [Hc Hp]. split; [done|].
    intros P. apply elem_of_app. right. by apply Hp.
Qed.

Lemma freeze_loop_closed fuel l :
  (forall c h r h', valid_refs h -> c < List.length h ->
     freeze fuel (VObj c) h = Ret r h' -> exists S, c ∈ S /\ frozen_closed h' S) ->
  forall keys h0 S0 h1,
    valid_refs h0 -> frozen_closed h0 S0 ->
    for_each keys (freeze_key (freeze fuel) (VObj l)) h0 = Ret tt h1 ->
    exists S1, frozen_closed h1 S1 /\ (forall x, x ∈ S0 -> x ∈ S1) /\
      forall k c, k ∈ keys -> get_prop h0 (VObj l) k = VObj c ->
                  isPlainObject h0 (VObj c) = true -> c ∈ S1.
Proof.
  intros IH. induction keys as [|k ks IHk]; intros h0 S0 h1 Hv Hc Hrun.
  - injection Hrun as <-. exists S0. split; [done|]. split; [done|].
    intros k c Hk. by apply elem_of_nil in Hk.
  - rewrite for_each_cons, freeze_key_eq in Hrun.
    destruct (isPlainObject h0 (get_prop h0 (VObj l) k)) eqn:Hp.
    + destruct (isPlainObject_obj _ _ Hp) as [c Hgc]. rewrite Hgc in *.
      assert (c < List.length h0) as Hlt.
      { unfold isPlainObject in Hp. destruct (h0 !! c) eqn:E; [|done].
        by eapply lookup_lt_Some. }
      pose proof (freeze_freezes_only fuel (VObj c) h0) as Hfo.
      destruct (freeze fuel (VObj c) h0) as [r ha|e ha|] eqn:Hf; [|done|done].
      destruct Hfo as [-> Hfo].
      destruct (IH c h0 _ ha Hv Hlt Hf) as (Sc & Hcin & Hcc).
      pose proof (put_same true (VObj l) k (VObj c) ha) as Hput.
      rewrite (freezes_only_own_prop h0 ha) in Hput by done.
      specialize (Hput (get_prop_obj_own _ _ _ _ Hgc)).
      destruct (put true (VObj l) k (VObj c) ha) as [[] hb|e hb|]; [|done|done].
      subst hb.
      destruct (IHk ha (S0 ++ Sc) h1) as (S1 & Hc1 & Hsub & Hkids).
      * by apply (freezes_only_keeps_valid VUndefined h0 ha Hfo).
      * apply frozen_closed_app; [|done].
        by apply (frozen_closed_keeps h0 ha S0 (freezes_only_keeps_frozen _ _ Hfo)).
      * done.
      * exists S1. split; [done|]. split.
        { intros x Hx. apply Hsub, elem_of_app. by left. }
        intros k' c' Hk' Hg' Hp'. apply elem_of_cons in Hk' as [->|Hk'].
        { assert (c' = c) as -> by congruence. apply Hsub, elem_of_app. by right. }
        apply (Hkids k' c' Hk').
        -- by rewrite (freezes_only_get_prop h0 ha).
        -- by rewrite (freezes_only_isPlainObject h0 ha).
    + destruct (IHk h0 S0 h1 Hv Hc Hrun) as (S1 & Hc1 & Hsub & Hkids).
      exists S1. split; [done|]. split; [done|].
      intros k' c' Hk' Hg' Hp'. apply elem_of_cons in Hk' as [->|Hk'].
      * rewrite Hg' in Hp. congruence.
      * by apply (Hkids k' c').
Qed.

(** A [freeze] that returns leaves its argument deeply frozen. *)
Lemma freeze_deep_frozen fuel : forall l h r h',
  valid_refs h -> l < List.length h ->
  freeze fuel (VObj l) h = Ret r h' ->
  exists S, l ∈ S /\ frozen_closed h' S.
Proof.
  induction fuel as [|fuel IH]; intros l h r h' Hv Hlt Hrun; [done|].
  rewrite freeze_S in Hrun. cbn [Reflect_ownKeys] in Hrun.
  pose proof (preserves_for_each freezes_only freezes_only_refl freezes_only_trans
                (ownKeys h (VObj l)) _
                (freeze_key_freezes_only _ (VObj l) (freeze_freezes_only fuel)) h) as Hfo.
  destruct (for_each (ownKeys h (VObj l)) (freeze_key (freeze fuel) (VObj l)) h)
    as [[] h1|e h1|] eqn:Hloop; [|done|done].
  destruct (freeze_loop_closed fuel l IH _ h [] h1 Hv (frozen_closed_nil h) Hloop)
    as (S1 & Hc1 & _ & Hkids).
  apply lookup_lt_is_Some in Hlt as [o Ho].
  destruct Hfo as [Hlen Hfo]. destruct (Hfo l o Ho) as (fz & Ho1 & _).
  unfold Object_freeze in Hrun. rewrite Ho1 in Hrun. cbn [o_kind o_props] in Hrun.
  injection Hrun as <- <-.
  assert (valid_refs h1) as Hv1.
  { by apply (freezes_only_keeps_valid VUndefined h h1 (conj Hlen Hfo)). }
  set (o' := Obj (o_kind o) true (o_props o)).
  assert (forall c, is_Some ((<[l := o']> h1) !! c) <-> is_Some (h1 !! c)) as Hsome.
  { intros c. rewrite !lookup_lt_is_Some. by rewrite length_insert. }
  assert (forall c, isPlainObject (<[l := o']> h1) (VObj c) = isPlainObject h1 (VObj c)) as Hplain.
  { intros c. unfold isPlainObject. rewrite (lookup_insert_put h1 l _ o' c Ho1).
    destruct (decide (c = l)) as [->|]; [by rewrite Ho1|done]. }
  exists (l :: S1). split; [apply elem_of_cons; by left|].
  intros x Hx. rewrite (lookup_insert_put h1 l _ o' x Ho1).
  destruct (decide (x = l)) as [->|Hne].
  - exists o'. split; [done|]. split; [done|]. cbn [o' o_props]. intros k c Hk.
    split.
    + apply Hsome. apply lookup_lt_is_Some.
      pose proof (valid_props_pget h (o_props o) k (VObj c) (Hv l o Ho) Hk) as Hk'.
      cbn [valid_value] in Hk'. lia.
    + rewrite Hplain. intros Hp. apply elem_of_cons. right.
      apply (Hkids k c).
      * rewrite (ownKeys_lookup h l o Ho). by apply (pget_Some_elem _ _ _ Hk).
      * by rewrite (get_prop_lookup h l o k Ho), Hk.
      * by rewrite <- (freezes_only_isPlainObject h h1 _ (conj Hlen Hfo)).
  - apply elem_of_cons in Hx as [?|Hx]; [done|].
    destruct (Hc1 x Hx) as (ox & Hox & Hfz & Hk). exists ox. split; [done|]. split; [done|].
    intros k c Hkc. destruct (Hk k c Hkc) as [Hs Hp]. split; [by apply Hsome|].
    rewrite Hplain. intros P. apply elem_of_cons. right. by apply Hp.
Qed.

(** *** [guard] freezes plain mappings only *)

Lemma put_spares strict target k v x o :
  target <> VObj x -> preserves (spares x o) (put strict target k v).
Proof.
  intros Hne h. unfold put, spares.
  destruct target; try (destruct strict); try done.
  all: destruct (h !! l) as [ol|] eqn:E; try done.
  all: destruct (o_frozen ol); try done.
  all: rewrite list_lookup_insert_ne; [done | congruence].
Qed.

Lemma spares_refl x o h : spares x o h h.
Proof. by unfold spares. Qed.

Lemma spares_trans x o h1 h2 h3 : spares x o h1 h2 -> spares x o h2 h3 -> spares x o h1 h3.
Proof. unfold spares. auto. Qed.

(** [freeze] leaves alone every array and every instance, but its own
    argument. *)
Lemma freeze_spares fuel x o :
  o_kind o <> Plain ->
  forall object, object <> VObj x -> preserves (spares x o) (freeze fuel object).
Proof.
  intros Hkind. induction fuel as [|fuel IH]; intros object Hne h; [done|].
  rewrite freeze_S.
  destruct object as [| | | | |l]; cbn [Reflect_ownKeys]; try apply spares_refl.
  assert (forall key, preserves (spares x o) (freeze_key (freeze fuel) (VObj l) key)) as Hbody.
  { intros key s. rewrite freeze_key_eq.
    destruct (isPlainObject s (get_prop s (VObj l) key)) eqn:Hp; [|apply spares_refl].
    assert (s !! x = Some o -> get_prop s (VObj l) key <> VObj x) as Hnx.
    { intros Hx Heq. rewrite Heq in Hp. unfold isPlainObject in Hp. rewrite Hx in Hp.
      by destruct (o_kind o). }
    destruct (freeze fuel (get_prop s (VObj l) key) s) as [r s1|e s1|] eqn:Hf; [| |done].
    - pose proof (put_spares true (VObj l) key r x o Hne s1) as H2.
      destruct (put true (VObj l) key r s1) as [[] s2|e s2|]; [| |done];
        intros Hx; pose proof (IH _ (Hnx Hx) s) as H1; rewrite Hf in H1;
        apply H2; by apply H1.
    - intros Hx. pose proof (IH _ (Hnx Hx) s) as H1. rewrite Hf in H1. by apply H1. }
  pose proof (preserves_for_each (spares x o) (spares_refl x o) (spares_trans x o)
                (ownKeys h (VObj l)) _ Hbody h) as Hloop.
  destruct (for_each _ _ h) as [[] h1|e h1|]; [|done|done].
  unfold Object_freeze. destruct (h1 !! l) as [ol|] eqn:E; [|done].
  intros Hx. rewrite list_lookup_insert_ne; [by apply Hloop | congruence].
Qed.

(** *** [unguard] keeps the frozen objects *)

Lemma unfreeze_keeps_frozen fuel : forall object,
  preserves keeps_frozen (unfreeze fuel object).
Proof.
  induction fuel as [|fuel IH]; intros object; [done|].
  cbn [unfreeze].
  apply preserves_bind; [apply keeps_frozen_trans | apply alloc_keeps_frozen |].
  intros unfrozen. apply preserves_bind; [apply keeps_frozen_trans | |].
  { intros h. unfold Reflect_ownKeys. destruct object; apply keeps_frozen_refl. }
  intros keys. apply preserves_bind; [apply keeps_frozen_trans | |].
  2: { intros _. apply preserves_ret, keeps_frozen_refl. }
  apply preserves_for_each; [apply keeps_frozen_refl | apply keeps_frozen_trans |].
  intros key. unfold unfreeze_key.
  apply preserves_bind;
    [apply keeps_frozen_trans | apply preserves_reads, keeps_frozen_refl |].
  intros value. apply preserves_bind;
    [apply keeps_frozen_trans | apply preserves_reads, keeps_frozen_refl |].
  intros plain. apply preserves_bind; [apply keeps_frozen_trans | |].
  { destruct plain; [apply IH | apply preserves_ret, keeps_frozen_refl]. }
  intros copy. destruct (String.eqb key "__proto__");
    [apply preserves_ret, keeps_frozen_refl | apply put_keeps_frozen].
Qed.

(** *** Steps of the container *)

Lemma keeps_frozen_length h h' : keeps_frozen h h' -> List.length h <= List.length h'.
Proof.
  intros Hk. destruct (decide (List.length h = 0)) as [->|Hne]; [lia|].
  assert (List.length h - 1 < List.length h) as Hlt by lia.
  apply lookup_lt_is_Some in Hlt as [o Ho].
  destruct (Hk _ o Ho) as (o' & Ho' & _). apply lookup_lt_Some in Ho'. lia.
Qed.

Lemma deep_frozen_keeps h h' v : keeps_frozen h h' -> deep_frozen h v -> deep_frozen h' v.
Proof.
  intros Hk (l & S & -> & Hl & Hc). exists l, S. split; [done|]. split; [done|].
  by apply (frozen_closed_keeps h h' S Hk).
Qed.

Lemma bag_step_refl v w : bag_step v w w.
Proof. split; [|done]. apply same_bag_refl, keeps_frozen_refl. Qed.

Lemma bag_step_trans v w1 w2 w3 : bag_step v w1 w2 -> bag_step v w2 w3 -> bag_step v w1 w3.
Proof.
  intros [Hs1 Hv1] [Hs2 Hv2]. split; [exact (same_bag_trans _ _ _ _ keeps_frozen_trans Hs1 Hs2)|].
  intros Hw Hv. apply Hv2; [by apply Hv1|].
  destruct Hs1 as (Hk & _). apply keeps_frozen_length in Hk.
  by apply (valid_value_mono (w_heap w1)).
Qed.

Lemma bag_step_weaken v u w w' :
  (valid_world w -> valid_value (w_heap w) v) -> bag_step v w w' -> bag_step u w w'.
Proof. intros Hv [Hs Hk]. split; [done|]. intros Hw _. apply Hk; [done | by apply Hv]. Qed.

Lemma bag_step_sound v w w' :
  bag_step v w w' -> valid_value (w_heap w) v -> sound w ->
  sound w' /\ List.length (w_heap w) <= List.length (w_heap w').
Proof.
  intros [(Hk & Ha & HAM & Hg) Hv] Hvv [Hw Hinv]. split; [split|].
  - by apply Hv.
  - intros Hg'. rewrite Ha. apply (deep_frozen_keeps (w_heap w)); [done|].
    apply Hinv. congruence.
  - by apply keeps_frozen_length.
Qed.

Lemma with_heap_step v w h' :
  keeps_frozen (w_heap w) h' -> keeps_valid v (w_heap w) h' -> bag_step v w (with_heap w h').
Proof.
  intros Hk [Hlen Hv]. split; [by split|].
  intros (Hrefs & Hattrs & Hmodel) Hvv. split; [by apply Hv|]. split; [|done].
  by apply (valid_value_mono (w_heap w)).
Qed.

Lemma converted_valid w v :
  valid_world w -> valid_value (w_heap w) v ->
  valid_refs (snd (converted w v)) /\ valid_value (snd (converted w v)) (fst (converted w v)).
Proof.
  intros (Hrefs & _ & Hmodel) Hv. unfold converted.
  destruct (AttributeModel w) as [fields|]; cbn [fst snd]; [|done]. split.
  - apply valid_refs_app; [done|]. cbn [o_props]. apply valid_props_instance.
    by apply (Hmodel fields).
  - cbn. rewrite length_app. cbn. lia.
Qed.

Lemma Bag_set_step strict k v : preserves (bag_step v) (Bag_set strict k v).
Proof.
  intros w. rewrite Bag_set_eq.
  pose proof (converted_extends w v) as Hext. apply extends_keeps_frozen in Hext.
  set (v1 := fst (converted w v)) in *. set (h1 := snd (converted w v)) in *.
  pose proof (lodash_set_keeps_frozen strict (attributes w) k v1 h1) as Hk.
  pose proof (lodash_set_keeps_valid strict (attributes w) k v1 h1) as Hv.
  assert (forall h2, keeps_frozen h1 h2 -> keeps_valid v1 h1 h2 -> bag_step v w (with_heap w h2))
    as Hstep.
  { intros h2 Hk2 [Hl2 Hv2]. split.
    - split; [by eapply keeps_frozen_trans | done].
    - intros Hw Hvv. destruct (converted_valid w v Hw Hvv) as [Hr1 Hv1].
      destruct Hw as (Hrefs & Hattrs & Hmodel).
      split; [by apply Hv2|]. split; [|done]. cbn [w_heap with_heap attributes].
      apply (valid_value_mono (w_heap w)); [|done].
      apply keeps_frozen_length in Hext. fold h1 in Hext. lia. }
  destruct (lodash_set strict (attributes w) k v1 h1) as [[] h2|e h2|]; [| |done];
    by apply Hstep.
Qed.

Lemma lifted_step v (m : M heap unit) w :
  preserves keeps_frozen m -> preserves (keeps_valid v) m ->
  match (match m (w_heap w) with
         | Ret _ h => Ret this (with_heap w h)
         | Throw e h => Throw e (with_heap w h)
         | OutOfFuel => OutOfFuel
         end : outcome world self) with
  | Ret _ w' | Throw _ w' => bag_step v w w'
  | OutOfFuel => True
  end.
Proof.
  intros Hk Hv. specialize (Hk (w_heap w)). specialize (Hv (w_heap w)).
  destruct (m (w_heap w)) as [[] h|e h|]; [| |done]; by apply with_heap_step.
Qed.

Lemma lodash_each_Bag_set_step strict attrs :
  preserves (bag_step VUndefined) (lodash_each attrs (fun v k => Bag_set strict k v ;; ret tt)).
Proof.
  assert (forall (f : world -> value) k,
            (forall w, valid_world w -> valid_value (w_heap w) (f w)) ->
            preserves (bag_step VUndefined)
              (v <- reads f ;; (Bag_set strict k v ;; ret tt))) as Hbody.
  { intros f k Hf w. unfold bind, reads, ret.
    pose proof (Bag_set_step strict k (f w) w) as Hs.
    destruct (Bag_set strict k (f w) w) as [[] w'|e w'|]; [| |done];
      (eapply bag_step_weaken; [|exact Hs]; apply Hf). }
  intros w. unfold lodash_each.
  destruct (arrayLike (w_heap w) attrs);
    (apply preserves_for_each; [apply bag_step_refl | apply bag_step_trans |]);
    intros x; apply Hbody; intros w0 (Hrefs & _); by apply get_prop_valid.
Qed.

Lemma Bag_reset_eq strict fuel attrs guarded w :
  Bag_reset strict fuel attrs guarded w =
  match lodash_each attrs (fun v k => Bag_set strict k v ;; ret tt)
          (World (w_heap w ++ [Obj Plain false []]) (VObj (List.length (w_heap w)))
                 (AttributeModel w) (GuardedState w)) with
  | Ret _ w1 =>
      if guarded
      then match Bag_guard fuel w1 with
           | Ret _ w2 => Ret this w2
           | Throw e w2 => Throw e w2
           | OutOfFuel => OutOfFuel
           end
      else Ret this w1
  | Throw e w1 => Throw e w1
  | OutOfFuel => OutOfFuel
  end.
Proof.
  unfold Bag_reset. unfold bind at 1. rewrite on_heap_eq. unfold alloc.
  unfold bind at 1. unfold set_attributes, modify. unfold bind at 1.
  cbn [with_heap w_heap attributes AttributeModel GuardedState].
  match goal with |- context [lodash_each ?a ?f ?w0] => destruct (lodash_each a f w0) as [[] w'| |] end;
    try reflexivity.
  unfold bind, ret. destruct guarded; [|reflexivity].
  by destruct (Bag_guard fuel w') as [[] w2| |].
Qed.

(** *** Each operation keeps the invariant *)

Lemma Bag_guard_sound fuel w w' :
  sound w -> final (Bag_guard fuel w) = Some w' ->
  sound w' /\ List.length (w_heap w) <= List.length (w_heap w').
Proof.
  intros Hs Hrun. rewrite Bag_guard_eq in Hrun.
  pose proof (freeze_freezes_only fuel (attributes w) (w_heap w)) as Hfo.
  destruct (freeze fuel (attributes w) (w_heap w)) as [r h'|e h'|] eqn:Hf; [| |done].
  - injection Hrun as <-. destruct Hfo as [-> Hfo].
    destruct Hs as [(Hrefs & Hattrs & Hmodel) _].
    pose proof (freezes_only_keeps_valid VUndefined _ _ Hfo) as [Hlen Hv].
    split; [|done]. split.
    + split; [by apply Hv|]. split; [|done]. by apply (valid_value_mono (w_heap w)).
    + intros _. cbn [w_heap attributes].
      destruct (attributes w) as [| | | | |l] eqn:Ha;
        try (destruct fuel; [done | rewrite freeze_S in Hf; done]).
      destruct (freeze_deep_frozen fuel l _ _ _ Hrefs Hattrs Hf) as (S & Hl & Hc).
      by exists l, S.
  - injection Hrun as <-.
    apply (bag_step_sound VUndefined); [|done|done].
    apply with_heap_step; [by apply freezes_only_keeps_frozen|].
    by apply freezes_only_keeps_valid.
Qed.

Lemma Bag_unguard_sound fuel w w' :
  sound w -> final (Bag_unguard fuel w) = Some w' ->
  sound w' /\ List.length (w_heap w) <= List.length (w_heap w').
Proof.
  intros Hs Hrun. rewrite Bag_unguard_eq in Hrun.
  pose proof (unfreeze_keeps_valid fuel (attributes w) (w_heap w)) as Hv.
  pose proof (unfreeze_keeps_frozen fuel (attributes w) (w_heap w)) as Hk.
  destruct (unfreeze fuel (attributes w) (w_heap w)) as [r h'|e h'|]; [| |done].
  - injection Hrun as <-. destruct Hv as [[Hlen Hv] Hr].
    destruct Hs as [(Hrefs & Hattrs & Hmodel) _]. split; [|done]. split.
    + split; [by apply Hv|]. by split.
    + by intros [=].
  - injection Hrun as <-.
    apply (bag_step_sound VUndefined); [|done|done]. by apply with_heap_step.
Qed.

Lemma Bag_set_sound strict k v w w' :
  sound w -> valid_value (w_heap w) v -> final (Bag_set strict k v w) = Some w' ->
  sound w' /\ List.length (w_heap w) <= List.length (w_heap w').
Proof.
  intros Hs Hv Hrun. pose proof (Bag_set_step strict k v w) as Hstep.
  destruct (Bag_set strict k v w) as [[] w1|e w1|]; [| |done];
    injection Hrun as <-; by apply (bag_step_sound v).
Qed.

Lemma Bag_mutate_sound strict fuel k v w w' :
  sound w -> valid_value (w_heap w) v -> final (Bag_mutate strict fuel k v w) = Some w' ->
  sound w'.
Proof.
  intros Hs Hv Hrun. rewrite Bag_mutate_eq in Hrun.
  destruct (match GuardedState w with Some b => b | None => false end).
  - destruct (Bag_unguard fuel w) as [[] w1|e w1|] eqn:H1; [| |done].
    + destruct (Bag_unguard_sound fuel w w1 Hs) as [Hs1 Hl1]; [by rewrite H1|].
      assert (valid_value (w_heap w1) v) as Hv1 by (by apply (valid_value_mono (w_heap w))).
      destruct (Bag_set strict k v w1) as [[] w2|e w2|] eqn:H2; [| |done].
      * destruct (Bag_set_sound strict k v w1 w2 Hs1 Hv1) as [Hs2 Hl2]; [by rewrite H2|].
        destruct (Bag_guard fuel w2) as [[] w3|e w3|] eqn:H3; [| |done];
          injection Hrun as <-;
          (destruct (Bag_guard_sound fuel w2 w3 Hs2) as [Hs3 _]; [by rewrite H3 | done]).
      * injection Hrun as <-.
        destruct (Bag_set_sound strict k v w1 w2 Hs1 Hv1) as [Hs2 Hl2]; [by rewrite H2 | done].
    + injection Hrun as <-.
      destruct (Bag_unguard_sound fuel w w1 Hs) as [Hs1 Hl1]; [by rewrite H1 | done].
  - destruct (Bag_set strict k v w) as [[] w2|e w2|] eqn:H2; [| |done];
      injection Hrun as <-;
      (destruct (Bag_set_sound strict k v w w2 Hs Hv) as [Hs2 _]; [by rewrite H2 | done]).
Qed.

Lemma Bag_reset_sound strict fuel attrs guarded w w' :
  sound w -> GuardedState w <> Some true ->
  final (Bag_reset strict fuel attrs guarded w) = Some w' -> sound w'.
Proof.
  intros [(Hrefs & Hattrs & Hmodel) _] Hg Hrun. rewrite Bag_reset_eq in Hrun.
  set (w0 := World (w_heap w ++ [Obj Plain false []]) (VObj (List.length (w_heap w)))
                   (AttributeModel w) (GuardedState w)) in *.
  assert (sound w0) as Hs0.
  { split; [|by intros Hg0].
    split; [apply valid_refs_app; [done | constructor]|]. split; [|done].
    cbn. rewrite length_app. cbn. lia. }
  pose proof (lodash_each_Bag_set_step strict attrs w0) as Hstep.
  destruct (lodash_each attrs _ w0) as [[] w1|e w1|]; [| |done].
  - destruct (bag_step_sound VUndefined w0 w1 Hstep I Hs0) as [Hs1 _].
    destruct guarded; [|by injection Hrun as <-].
    destruct (Bag_guard fuel w1) as [[] w2|e w2|] eqn:H2; [| |done];
      injection Hrun as <-;
      (destruct (Bag_guard_sound fuel w1 w2 Hs1) as [Hs2 _]; [by rewrite H2 | done]).
  - injection Hrun as <-. by destruct (bag_step_sound VUndefined w0 w1 Hstep I Hs0).
Qed.

(** C2, what the code keeps.  On a well-formed world, every operation of
    the container other than a [reset] of a guarded container keeps the
    invariant, whether it returns or throws: when the guarded flag is
    [true], the attributes and every plain mapping they hold, recursively,
    are frozen.  [guard] freezes nothing else: an array or an instance
    (other than the attributes themselves) is after [guard] what it was
    before. *)
Theorem C2_guarded_invariant strict fuel :
  (forall op w w',
     sound w -> valid_operation (w_heap w) op -> supported op w ->
     run strict fuel op w = Some w' -> sound w') /\
  (forall w w' x o,
     w_heap w !! x = Some o -> o_kind o <> Plain -> attributes w <> VObj x ->
     final (Bag_guard fuel w) = Some w' -> w_heap w' !! x = Some o).
Proof.
  split.
  - intros op w w' Hs Hv Hsup Hrun. destruct op; cbn [run valid_operation supported] in *.
    + by destruct (Bag_set_sound strict k v w w' Hs Hv Hrun).
    + rewrite Bag_put_eq in Hrun.
      pose proof (lifted_step VUndefined (lodash_extend strict (attributes w) source) w
                    (lodash_extend_keeps_frozen _ _ _) (lodash_extend_keeps_valid _ _ _ _)) as H.
      destruct (lodash_extend strict (attributes w) source (w_heap w)) as [[] h|e h|];
        [| |done]; injection Hrun as <-;
        by destruct (bag_step_sound VUndefined _ _ H I Hs).
    + rewrite Bag_forget_eq in Hrun.
      pose proof (lifted_step VUndefined (lodash_unset strict (attributes w) k) w
                    (lodash_unset_keeps_frozen _ _ _) (lodash_unset_keeps_valid _ _ _ _)) as H.
      destruct (lodash_unset strict (attributes w) k (w_heap w)) as [[] h|e h|];
        [| |done]; injection Hrun as <-;
        by destruct (bag_step_sound VUndefined _ _ H I Hs).
    + rewrite Bag_defaults_eq in Hrun.
      pose proof (lifted_step VUndefined (lodash_defaults strict (attributes w) source) w
                    (lodash_defaults_keeps_frozen _ _ _) (lodash_defaults_keeps_valid _ _ _ _)) as H.
      destruct (lodash_defaults strict (attributes w) source (w_heap w)) as [[] h|e h|];
        [| |done]; injection Hrun as <-;
        by destruct (bag_step_sound VUndefined _ _ H I Hs).
    + by destruct (Bag_guard_sound fuel w w' Hs Hrun).
    + by destruct (Bag_unguard_sound fuel w w' Hs Hrun).
    + by apply (Bag_mutate_sound strict fuel k v w w').
    + by apply (Bag_reset_sound strict fuel attrs guarded w w').
  - intros w w' x o Hx Hkind Hattrs Hrun. rewrite Bag_guard_eq in Hrun.
    pose proof (freeze_spares fuel x o Hkind (attributes w) Hattrs (w_heap w)) as Hsp.
    destruct (freeze fuel (attributes w) (w_heap w)) as [r h'|e h'|]; [| |done];
      injection Hrun as <-; by apply Hsp.
Qed.

Lemma sound_guarded_a_b : sound world_guarded_a_b.
Proof.
  split; [split; [|split; [cbn; lia | done]]|].
  - intros l o Hl. destruct l as [|[|[|l]]]; cbn in Hl; [| | |done];
      injection Hl as <-; repeat constructor; cbn; lia.
  - intros _. exists 2, [2; 0]. split; [done|]. split; [apply elem_of_cons; by left|].
    exact frozen_closed_guarded_a_b.
Qed.

Lemma C2_witness :
  exists w', run true 4 (OMutate (KStr "a.b") (VNum 99)) world_guarded_a_b = Some w' /\
             sound w'.
Proof.
  eexists. split; [vm_compute; reflexivity|].
  apply (proj1 (C2_guarded_invariant true 4) (OMutate (KStr "a.b") (VNum 99))
           world_guarded_a_b _ sound_guarded_a_b I I).
  vm_compute. reflexivity.
Defined.


(** C2, at the failing input: on the guarded [new Bag({a: {b: 1}}, true)],
    [reset({a: {b: 1}})] returns with [isGuarded()] still [true] and
    mutable attributes: the invariant is lost, and the direct [set('c', 3)]
    that follows succeeds. *)
Lemma C2_reset_keeps_flag_drops_freeze :
  exists w w' w'',
    Bag_new true 4 heap_a_b (VObj 1) true None = Ret this w /\
    sound w /\
    run true 4 (OReset (VObj 1) false) w = Some w' /\
    Bag_isGuarded w' = Ret (VBool true) w' /\
    ~ guarded_invariant w' /\
    Bag_set true (KStr "c") (VNum 3) w' = Ret this w'' /\
    Bag_get (KStr "c") VUndefined w'' = Ret (VNum 3) w''.
Proof.
  do 3 eexists. split; [vm_compute; reflexivity|].
  split; [exact sound_guarded_a_b|].
  split; [vm_compute; reflexivity|]. split; [reflexivity|].
  split.
  - intros Hinv. destruct (Hinv eq_refl) as (l & S & Hl & Hin & Hc).
    cbn [attributes] in Hl. injection Hl as <-.
    destruct (Hc _ Hin) as (o & Ho & Hfz & _). cbn [w_heap] in Ho.
    vm_compute in Ho. injection Ho as <-. discriminate.
  - split; vm_compute; reflexivity.
Qed.

(** * Further properties *)

(** ** [has], [get], [set] and [forget] *)


Lemma baseGet_loop_nullish h v path :
  path <> [] -> nullish v = true -> baseGet_loop h v path = VUndefined.
Proof. destruct path; [done|]. intros _ Hn. cbn [baseGet_loop]. by rewrite Hn. Qed.

Lemma hasPath_loop_cons h v k k' rest :
  hasPath_loop h v (k :: k' :: rest) =
  negb (nullish v) && hasOwn h v k && hasPath_loop h (get_prop h v k) (k' :: rest).
Proof. cbn [hasPath_loop]. by destruct (negb (nullish v) && hasOwn h v k). Qed.

Lemma get_prop_not_own h v k : hasOwn h v k = false -> get_prop h v k = VUndefined.
Proof. unfold hasOwn, get_prop. by destruct (own_prop h v k). Qed.

(** Where [get] finds a value, [has] finds the key. *)
Lemma baseGet_loop_has h : forall path v,
  path <> [] -> baseGet_loop h v path <> VUndefined -> hasPath_loop h v path = true.
Proof.
  induction path as [|k rest IH]; intros v Hne Hget; [done|].
  cbn [baseGet_loop] in Hget. destruct (nullish v) eqn:Hn; [done|].
  destruct (hasOwn h v k) eqn:Hown.
  - destruct rest as [|k' rest']; [cbn [hasPath_loop]; by rewrite Hn, Hown|].
    rewrite hasPath_loop_cons, Hn, Hown. cbn [negb andb]. by apply IH.
  - rewrite (get_prop_not_own h v k Hown) in Hget.
    destruct rest as [|k' rest']; [done|]. by rewrite baseGet_loop_nullish in Hget.
Qed.




(** *** [forget] *)












(** ** [all], [keys] and [values] *)

Lemma insert_last (h : heap) (x y : object) :
  <[List.length h := y]> (h ++ [x]) = h ++ [y].
Proof.
  apply list_eq. intros i. destruct (decide (i = List.length h)) as [->|Hne].
  - rewrite list_lookup_insert_eq by (rewrite length_app; cbn; lia).
    by rewrite !list_lookup_middle.
  - rewrite list_lookup_insert_ne by done.
    destruct (decide (i < List.length h)) as [Hlt|Hge].
    + by rewrite !lookup_app_l.
    + rewrite !lookup_ge_None_2; [done | |]; rewrite length_app; cbn; lia.
Qed.

Lemma props_rebuild (ps : list (string * value)) :
  NoDup (map fst ps) ->
  map (fun k => (k, match pget ps k with Some x => x | None => VUndefined end)) (map fst ps)
  = ps.
Proof.
  induction ps as [|[k v] ps IH]; [done|]. cbn [map fst]. intros Hnd.
  apply NoDup_cons in Hnd as [Hk Hnd]. cbn [pget]. rewrite String.eqb_refl. f_equal.
  rewrite <- (IH Hnd) at 2. apply map_ext_in. intros k' Hk'.
  destruct (String.eqb_spec k k') as [->|Hne]; [|done].
  apply list_elem_of_In in Hk'. done.
Qed.

(** The loop of [extend] into a new object: the entries are appended. *)
Lemma extend_copy_loop strict p l src : forall ks acc h,
  h !! p = Some (Obj Plain false acc) -> h !! l = Some src -> l <> p ->
  NoDup ks -> (forall k, k ∈ ks -> k ∉ map fst acc) ->
  for_each ks (fun k => newValue <- reads (fun h => get_prop h (VObj l) k) ;;
                        assignValue strict (VObj p) k newValue) h =
  Ret tt (<[p := Obj Plain false
                   (acc ++ map (fun k => (k, get_prop h (VObj l) k)) ks)]> h).
Proof.
  induction ks as [|k ks IH]; intros acc h Hp Hl Hlp Hnd Hfresh.
  - cbn [for_each map]. rewrite app_nil_r. unfold ret. f_equal. symmetry.
    by apply list_insert_id.
  - apply NoDup_cons in Hnd as [Hk Hnd].
    rewrite for_each_cons. unfold bind at 1. unfold reads at 1.
    rewrite (assignValue_unfrozen strict h p _ k _ Hp eq_refl). cbn [o_kind o_props].
    assert (k ∉ map fst acc) as Hka by (apply Hfresh, elem_of_cons; by left).
    rewrite (pset_fresh acc k _ Hka).
    set (v := get_prop h (VObj l) k). set (acc1 := acc ++ [(k, v)]).
    set (h1 := <[p := Obj Plain false acc1]> h).
    assert (forall k', get_prop h1 (VObj l) k' = get_prop h (VObj l) k') as Hsrc.
    { intros k'. apply get_prop_insert_ne. congruence. }
    rewrite (IH acc1 h1).
    + f_equal. unfold h1. rewrite list_insert_insert_eq. f_equal. f_equal.
      unfold acc1. rewrite <- app_assoc. cbn [app map]. do 2 f_equal.
      apply map_ext. intros k'. by rewrite Hsrc.
    + unfold h1. apply list_lookup_insert_eq. by eapply lookup_lt_Some.
    + unfold h1. by rewrite list_lookup_insert_ne.
    + done.
    + done.
    + intros k' Hk'. unfold acc1. rewrite map_app. cbn [map fst].
      rewrite elem_of_app, list_elem_of_singleton. intros [Hin|Heq]; [|by subst k'].
      revert Hin. apply Hfresh, elem_of_cons. by right.
Qed.

Lemma Bag_all_eq strict w :
  Bag_all strict w =
  match lodash_extend strict (VObj (List.length (w_heap w))) (attributes w)
          (w_heap w ++ [Obj Plain false []]) with
  | Ret _ h => Ret (VObj (List.length (w_heap w))) (with_heap w h)
  | Throw e h => Throw e (with_heap w h)
  | OutOfFuel => OutOfFuel
  end.
Proof.
  unfold Bag_all. unfold bind at 1. unfold reads at 1. rewrite on_heap_eq.
  unfold bind at 1. unfold alloc at 1. unfold bind at 1.
  by destruct (lodash_extend _ _ _ _) as [[] h| |].
Qed.

Lemma Bag_all_copy strict w l o :
  attributes w = VObj l -> w_heap w !! l = Some o -> NoDup (map fst (o_props o)) ->
  Bag_all strict w =
  Ret (VObj (List.length (w_heap w)))
      (with_heap w (w_heap w ++ [Obj Plain false (o_props o)])).
Proof.
  intros Ha Hl Hnd. rewrite Bag_all_eq, Ha. unfold lodash_extend. cbn [truthy keysIn].
  set (p := List.length (w_heap w)). set (h0 := w_heap w ++ [Obj Plain false []]).
  assert (h0 !! l = Some o) as Hl0 by (by apply lookup_app_l_Some).
  assert (l <> p) as Hlp by (apply lookup_lt_Some in Hl; unfold p; lia).
  rewrite (ownKeys_lookup h0 l o Hl0).
  rewrite (extend_copy_loop strict p l o (map fst (o_props o)) [] h0); try done.
  - cbn [app]. do 2 f_equal. unfold h0, p. rewrite insert_last. do 3 f_equal.
    rewrite <- (props_rebuild (o_props o) Hnd) at 2. apply map_ext. intros k.
    fold h0. by rewrite (get_prop_lookup h0 l o k Hl0).
  - unfold h0, p. by apply list_lookup_middle.
  - intros k _. apply not_elem_of_nil.
Qed.

(** X4: [all()] returns a new mutable plain object with the top-level
    entries of the attributes, in order, the nested values being shared;
    the attributes and every other object are as they were, on a guarded
    container too. *)
Theorem all_is_a_shallow_copy strict w l o :
  attributes w = VObj l -> w_heap w !! l = Some o -> NoDup (map fst (o_props o)) ->
  Bag_all strict w =
  Ret (VObj (List.length (w_heap w)))
      (with_heap w (w_heap w ++ [Obj Plain false (o_props o)])).
Proof. apply Bag_all_copy. Qed.




(** ** [reset] and the constructor *)

(** The loop of [reset] without a model, into the new attributes. *)
Lemma reset_copy_loop strict a s src : forall ks acc w,
  AttributeModel w = None -> attributes w = VObj a ->
  w_heap w !! a = Some (Obj Plain false acc) -> w_heap w !! s = Some src -> s <> a ->
  NoDup ks ->
  (forall k, k ∈ ks ->
     (k ∉ map fst acc) /\ reIsDeepProp k = false /\ unsafe_key k = false) ->
  for_each ks (fun k => v <- reads (fun w => get_prop (w_heap w) (VObj s) k) ;;
                        (Bag_set strict (KStr k) v ;; ret tt)) w =
  Ret tt (with_heap w
            (<[a := Obj Plain false
                      (acc ++ map (fun k => (k, get_prop (w_heap w) (VObj s) k)) ks)]>
               (w_heap w))).
Proof.
  induction ks as [|k ks IH]; intros acc w HAM Ha Hacc Hs Hsa Hnd Hks.
  - cbn [for_each map]. rewrite app_nil_r. unfold ret. f_equal.
    rewrite list_insert_id by done. by destruct w.
  - apply NoDup_cons in Hnd as [Hk Hnd].
    destruct (Hks k) as (Hka & Hdot & Hsafe); [apply elem_of_cons; by left|].
    rewrite for_each_cons. unfold bind at 1. unfold reads at 1. unfold bind at 1.
    rewrite (Bag_set_top strict w a _ k _ Ha Hacc eq_refl Hdot Hsafe). unfold ret at 1.
    unfold converted. rewrite HAM. cbn [fst snd o_kind o_props].
    rewrite (pset_fresh acc k _ Hka).
    set (v := get_prop (w_heap w) (VObj s) k). set (acc1 := acc ++ [(k, v)]).
    set (w1 := with_heap w (<[a := Obj Plain false acc1]> (w_heap w))).
    assert (forall k', get_prop (w_heap w1) (VObj s) k' = get_prop (w_heap w) (VObj s) k')
      as Hsrc.
    { intros k'. cbn [w1 with_heap w_heap]. apply get_prop_insert_ne. congruence. }
    rewrite (IH acc1 w1); try done.
    + f_equal. cbn [w1 with_heap w_heap attributes AttributeModel GuardedState].
      unfold with_heap. cbn [w_heap attributes AttributeModel GuardedState]. f_equal.
      rewrite list_insert_insert_eq. f_equal. f_equal.
      unfold acc1. rewrite <- app_assoc. cbn [app map]. do 2 f_equal.
      apply map_ext. intros k'. by rewrite Hsrc.
    + cbn [w1 with_heap w_heap]. apply list_lookup_insert_eq. by eapply lookup_lt_Some.
    + cbn [w1 with_heap w_heap]. by rewrite list_lookup_insert_ne.
    + intros k' Hk'. destruct (Hks k') as (Hk'a & ? & ?); [apply elem_of_cons; by right|].
      split; [|done]. unfold acc1. rewrite map_app. cbn [map fst].
      rewrite elem_of_app, list_elem_of_singleton. intros [Hin|Heq]; [done|by subst k'].
Qed.

(** The traversal of [reset] without a model: the new attributes get the
    entries of the source. *)
Lemma reset_each strict h s src g :
  h !! s = Some src -> arrayLike h (VObj s) = None ->
  NoDup (map fst (o_props src)) ->
  (forall k, k ∈ map fst (o_props src) ->
             reIsDeepProp k = false /\ unsafe_key k = false) ->
  lodash_each (VObj s) (fun v k => Bag_set strict k v ;; ret tt)
    (World (h ++ [Obj Plain false []]) (VObj (List.length h)) None g) =
  Ret tt (World (h ++ [Obj Plain false (o_props src)]) (VObj (List.length h)) None g).
Proof.
  intros Hs Hal Hnd Hks.
  set (a := List.length h).
  set (w0 := World (h ++ [Obj Plain false []]) (VObj a) None g).
  assert (w_heap w0 !! s = Some src) as Hs0 by (by apply lookup_app_l_Some).
  assert (s <> a) as Hsa by (apply lookup_lt_Some in Hs; unfold a; lia).
  unfold lodash_each.
  assert (arrayLike (w_heap w0) (VObj s) = None) as ->.
  { unfold arrayLike in *. by rewrite Hs0, Hs in *. }
  rewrite (ownKeys_lookup _ s src Hs0).
  rewrite (reset_copy_loop strict a s src (map fst (o_props src)) [] w0); try done.
  - f_equal. unfold with_heap. cbn [w0 w_heap attributes AttributeModel GuardedState].
    f_equal. unfold a. rewrite insert_last. do 3 f_equal. cbn [app].
    rewrite <- (props_rebuild (o_props src) Hnd) at 2. apply map_ext. intros k.
    by rewrite (get_prop_lookup (h ++ [Obj Plain false []]) s src k Hs0).
  - cbn [w0 w_heap]. by apply list_lookup_middle.
  - intros k Hk. split; [apply not_elem_of_nil | by apply Hks].
Qed.


(** X7: [new Bag(source, true)] on a tree of mutable plain mappings
    freezes the nested mappings of the caller's [source] in place, while
    the top-level object of [source] stays mutable and unchanged: the
    attributes are a new frozen object with the same entries. *)
Theorem guarded_constructor_freezes_in_place strict fuel h s kids :
  mutable_tree h (Node s false kids) ->
  arrayLike h (VObj s) = None ->
  (forall k, k ∈ map fst kids -> reIsDeepProp k = false /\ unsafe_key k = false) ->
  depth (Node s false kids) <= fuel ->
  exists h',
    Bag_new strict fuel h (VObj s) true None =
      Ret this (World h' (VObj (List.length h)) None (Some true)) /\
    shape h' (Node (List.length h) true
                (map (fun kc => (fst kc, frozen_tree (snd kc))) kids)) /\
    h' !! s = Some (Obj Plain false (kid_props kids)) /\
    (forall x, x < List.length h -> x ∉ kid_nodes kids -> h' !! x = h !! x).
Proof.
  intros (Hs & Hnd & Hfl) Hal Hks Hd.
  pose proof Hs as Hs'. apply shape_Node in Hs' as (Hl & Hkeys & Hkids).
  unfold Bag_new. rewrite Bag_reset_eq. cbn [w_heap AttributeModel GuardedState].
  rewrite (reset_each strict h s _ None Hl Hal); cbn [o_props];
    [|by rewrite kid_props_keys | by rewrite kid_props_keys].
  set (a := List.length h). set (h1 := h ++ [Obj Plain false (kid_props kids)]).
  assert (extends h h1) as Hext by apply extends_app.
  set (t1 := Node a false kids).
  assert (shape h1 t1) as Hs1.
  { apply shape_Node. split; [by apply list_lookup_middle|]. split; [done|].
    eapply Forall_impl; [exact Hkids|]. intros kc Hkc. by apply (shape_extends h). }
  rewrite nodes_Node in Hnd. apply NoDup_cons in Hnd as [Hs_notin Hndk].
  assert (forall x, x ∈ kid_nodes kids -> x < a) as Hrange.
  { intros x Hx. apply (shape_nodes_lt h (Node s false kids)); [done|].
    rewrite nodes_Node. apply elem_of_cons. by right. }
  assert (NoDup (nodes t1)) as Hnd1.
  { unfold t1. rewrite nodes_Node. apply NoDup_cons. split; [|done].
    intros Hin. apply Hrange in Hin. lia. }
  assert (flagged false t1) as Hfl1.
  { apply flagged_Node. apply flagged_Node in Hfl as [_ Hfl]. by split. }
  destruct (freeze_tree t1 fuel h1 Hs1 Hnd1 Hfl1) as (h' & Hfz & Hs3 & Hframe); [|done|].
  { unfold t1. rewrite depth_Node. by rewrite depth_Node in Hd. }
  rewrite Bag_guard_eq. cbn [w_heap attributes AttributeModel GuardedState].
  cbn [root t1] in Hfz. rewrite Hfz. exists h'. split; [done|]. split; [exact Hs3|].
  assert (s < a) as Hsa by (by eapply lookup_lt_Some).
  split.
  - rewrite Hframe; [by apply Hext|]. unfold t1. rewrite nodes_Node.
    apply not_elem_of_cons. split; [lia | done].
  - intros x Hx Hxk. rewrite Hframe.
    + unfold h1. by apply lookup_app_l.
    + unfold t1. rewrite nodes_Node. apply not_elem_of_cons. split; [lia | done].
Qed.

(** ** [unguard] *)


(** ** What [guard] does not protect *)




(** ** [set] creates the containers that are missing *)


(** ** Cyclic attributes *)

Lemma freeze_cycle (C : loc -> Prop) h :
  (forall y, C y -> exists k z fz ps,
     h !! y = Some (Obj Plain fz ((k, VObj z) :: ps)) /\ C z) ->
  forall fuel y, C y -> freeze fuel (VObj y) h = OutOfFuel.
Proof.
  intros Hh. induction fuel as [|fuel IH]; intros y Hy; [done|].
  destruct (Hh y Hy) as (k & z & fz & ps & Hl & Hz).
  rewrite freeze_S. cbn [Reflect_ownKeys]. rewrite (ownKeys_lookup h y _ Hl).
  cbn [o_props map fst]. rewrite for_each_cons, freeze_key_eq.
  rewrite (get_prop_lookup h y _ k Hl). cbn [o_props pget]. rewrite String.eqb_refl.
  destruct (Hh z Hz) as (k' & z' & fz' & ps' & Hlz & _).
  unfold isPlainObject. rewrite Hlz. cbn [o_kind]. by rewrite (IH z Hz).
Qed.

Lemma unfreeze_cycle (C : loc -> Prop) : forall fuel h,
  (forall y, C y -> exists k z fz ps,
     h !! y = Some (Obj Plain fz ((k, VObj z) :: ps)) /\ C z) ->
  forall y, C y -> unfreeze fuel (VObj y) h = OutOfFuel.
Proof.
  induction fuel as [|fuel IH]; intros h Hh y Hy; [done|].
  assert (forall y, C y -> exists k z fz ps,
            (h ++ [Obj Plain false []]) !! y = Some (Obj Plain fz ((k, VObj z) :: ps)) /\ C z)
    as Hh0.
  { intros y' Hy'. destruct (Hh y' Hy') as (k & z & fz & ps & Hl & Hz).
    exists k, z, fz, ps. split; [by apply lookup_app_l_Some | done]. }
  destruct (Hh0 y Hy) as (k & z & fz & ps & Hl & Hz).
  rewrite unfreeze_S. cbn [Reflect_ownKeys]. rewrite (ownKeys_lookup _ y _ Hl).
  cbn [o_props map fst]. rewrite for_each_cons, unfreeze_key_eq.
  rewrite (get_prop_lookup _ y _ k Hl). cbn [o_props pget]. rewrite String.eqb_refl.
  destruct (Hh0 z Hz) as (k' & z' & fz' & ps' & Hlz & _).
  unfold isPlainObject. rewrite Hlz. cbn [o_kind]. by rewrite (IH _ Hh0 z Hz).
Qed.

(** X11: where the first property of each mapping leads from the
    attributes into a cycle of plain mappings, neither [guard()] nor
    [unguard()] returns, whatever the recursion budget. *)
Theorem guard_never_returns_on_a_cycle (C : loc -> Prop) fuel w x :
  (forall y, C y -> exists k z fz ps,
     w_heap w !! y = Some (Obj Plain fz ((k, VObj z) :: ps)) /\ C z) ->
  attributes w = VObj x -> C x ->
  Bag_guard fuel w = OutOfFuel /\ Bag_unguard fuel w = OutOfFuel.
Proof.
  intros HC Ha Hx. rewrite Bag_guard_eq, Bag_unguard_eq, Ha.
  by rewrite (freeze_cycle C _ HC fuel x Hx), (unfreeze_cycle C fuel _ HC x Hx).
Qed.

(** ** [defaults] twice *)

Lemma put_stays_unfrozen strict target k v l :
  preserves (fun h h' => unfrozen_at h l -> unfrozen_at h' l) (put strict target k v).
Proof.
  intros h. unfold put. destruct target as [| | | | |q]; try (destruct strict); try done.
  all: destruct (h !! q) as [oq|] eqn:Hq; try done.
  all: destruct (o_frozen oq) eqn:Hfz; try done.
  all: intros (o & Ho & Hf); destruct (decide (l = q)) as [->|Hne];
    [ eexists; split; [apply list_lookup_insert_eq; by eapply lookup_lt_Some | done]
    | exists o; split; [by rewrite list_lookup_insert_ne | done] ].
Qed.

Lemma lodash_defaults_stays_unfrozen strict object source l :
  preserves (fun h h' => unfrozen_at h l -> unfrozen_at h' l)
    (lodash_defaults strict object source).
Proof.
  intros h. unfold lodash_defaults.
  apply (preserves_for_each (fun h h' => unfrozen_at h l -> unfrozen_at h' l));
    [done | by auto |].
  intros k h0. unfold bind at 1. unfold reads at 1.
  destruct (defaults_fills h0 object k); [|unfold ret; by auto].
  unfold bind. unfold reads. apply put_stays_unfrozen.
Qed.

(** X12: on a mutable container, [defaults(source)] a second time changes
    no top-level attribute. *)
Theorem defaults_twice strict w l o source :
  attributes w = VObj l -> w_heap w !! l = Some o -> o_frozen o = false ->
  source <> VObj l ->
  exists w1 w2,
    Bag_defaults strict source w = Ret this w1 /\
    Bag_defaults strict source w1 = Ret this w2 /\
    forall k, get_prop (w_heap w2) (VObj l) k = get_prop (w_heap w1) (VObj l) k.
Proof.
  intros Ha Hl Hfz Hsrc. rewrite Bag_defaults_eq, Ha. unfold lodash_defaults.
  destruct (lodash_defaults_loop strict l source (keysIn (w_heap w) source) (w_heap w) o Hl Hfz)
    as (h1 & Hloop & Hlen & Hframe & Hget & Hsrcget & Hown).
  rewrite Hloop. exists (with_heap w h1).
  assert (exists o1, h1 !! l = Some o1 /\ o_frozen o1 = false) as (o1 & Hl1 & Hfz1).
  { pose proof (lodash_defaults_stays_unfrozen strict (VObj l) source l (w_heap w)) as Hst.
    unfold lodash_defaults in Hst. rewrite Hloop in Hst. apply Hst. by exists o. }
  assert (keysIn h1 source = keysIn (w_heap w) source) as Hkeys.
  { destruct source as [| | | | |s]; try done. unfold keysIn, ownKeys.
    rewrite Hframe; [done | congruence]. }
  rewrite Bag_defaults_eq. cbn [with_heap w_heap attributes]. rewrite Ha.
  unfold lodash_defaults. rewrite Hkeys.
  destruct (lodash_defaults_loop strict l source (keysIn (w_heap w) source) h1 o1 Hl1 Hfz1)
    as (h2 & Hloop2 & _ & _ & Hget2 & _).
  rewrite Hloop2. exists (with_heap (with_heap w h1) h2). split; [done|]. split; [done|].
  intros k. cbn [with_heap w_heap]. rewrite Hget2.
  destruct (bool_decide (k ∈ keysIn (w_heap w) source)) eqn:Hk; [|done]. cbn [andb].
  destruct (defaults_fills h1 (VObj l) k) eqn:Hf1; [|done].
  pose proof (Hget k) as Hk1. pose proof (Hown k) as Hown1. rewrite Hk in Hk1, Hown1.
  cbn [andb] in Hk1, Hown1. rewrite Hsrcget.
  destruct (defaults_fills (w_heap w) (VObj l) k) eqn:Hf0; [done|].
  rewrite orb_false_r in Hown1. exfalso.
  unfold defaults_fills in Hf1, Hf0. rewrite Hown1, Hk1 in Hf1. congruence.
Qed.

(** ** [mutate] replaces the frozen tree *)


(** ** The properties at concrete inputs *)



Lemma all_is_a_shallow_copy_witness :
  Bag_all true world_guarded_a_b =
  Ret (VObj 3)
      (with_heap world_guarded_a_b
         (w_heap world_guarded_a_b ++ [Obj Plain false [("a", VObj 0)]])).
Proof.
  apply (all_is_a_shallow_copy true world_guarded_a_b 2 (Obj Plain true [("a", VObj 0)])).
  - reflexivity.
  - reflexivity.
  - cbn. apply NoDup_singleton.
Defined.



Lemma guarded_constructor_freezes_in_place_witness :
  exists h',
    Bag_new true 4 heap_a_b (VObj 1) true None =
      Ret this (World h' (VObj 2) None (Some true)) /\
    shape h' (Node 2 true [("a", Node 0 true [("b", Leaf (VNum 1))])]) /\
    h' !! 1 = Some (Obj Plain false [("a", VObj 0)]) /\
    (forall x, x < 2 -> x ∉ [0] -> h' !! x = heap_a_b !! x).
Proof.
  apply (guarded_constructor_freezes_in_place true 4 heap_a_b 1
           [("a", Node 0 false [("b", Leaf (VNum 1))])]).
  - split; [exact shape_tree_a_b|]. split; [exact NoDup_tree_a_b | exact flagged_tree_a_b].
  - reflexivity.
  - intros k Hk. cbn in Hk. apply list_elem_of_singleton in Hk as ->. by split.
  - cbn. lia.
Defined.





Lemma guard_never_returns_on_a_cycle_witness :
  Bag_guard 100 (World heap_self (VObj 0) None None) = OutOfFuel /\
  Bag_unguard 100 (World heap_self (VObj 0) None None) = OutOfFuel.
Proof.
  apply (guard_never_returns_on_a_cycle (fun y => y = 0) 100
           (World heap_self (VObj 0) None None) 0).
  - intros y ->. exists "self", 0, false, []. split; reflexivity.
  - reflexivity.
  - reflexivity.
Defined.

Lemma defaults_twice_witness :
  exists w1 w2,
    Bag_defaults true (VObj 1) (World heap_defaults (VObj 0) None None) = Ret this w1 /\
    Bag_defaults true (VObj 1) w1 = Ret this w2 /\
    forall k, get_prop (w_heap w2) (VObj 0) k = get_prop (w_heap w1) (VObj 0) k.
Proof.
  apply (defaults_twice true (World heap_defaults (VObj 0) None None) 0 (Obj Plain false [])).
  - reflexivity.
  - reflexivity.
  - reflexivity.
  - discriminate.
Defined.


